(** * Binary annotator (flatbuffers [binary_annotator.h])

    A shallow embedding of the declarations of [src/src/binary_annotator.h]
    and of the decoders it declares, followed by the properties of the
    annotation engine.

    Conventions:
    - [uint64_t] offsets are [N]; arithmetic on them wraps at [2^64]
      ([add64], [sub64]).
    - the pointer [const uint8_t *binary] is a function from byte offsets to
      bytes: [binary i] is [*(binary + i)].  The function is total, as a raw
      pointer is: what lies behind the end of the encoded buffer is whatever
      the memory holds there. *)

From Stdlib Require Import NArith ZArith Lia.
From stdpp Require Import base numbers option list gmap sets strings sorting.

#[local] Open Scope N_scope.

(** ** Enumerations of the header *)

Module BinaryRegionType.
Inductive t : Set :=
  | Unknown | UOffset | SOffset | VOffset | Bool | Byte | Char
  | Uint8 | Int8 | Uint16 | Int16 | Uint32 | Int32 | Uint64 | Int64
  | Float | Double.

#[global] Instance eq_dec : EqDecision t.
Proof. solve_decision. Defined.

(** The enumerators' numeric values, as written in the [enum class]. *)
Definition value (x : t) : N :=
  match x with
  | Unknown => 0 | UOffset => 1 | SOffset => 2 | VOffset => 3 | Bool => 4
  | Byte => 5 | Char => 6 | Uint8 => 7 | Int8 => 8 | Uint16 => 9
  | Int16 => 10 | Uint32 => 11 | Int32 => 12 | Uint64 => 13 | Int64 => 14
  | Float => 15 | Double => 16
  end.
End BinaryRegionType.

Module BinarySectionType.
Inductive t : Set :=
  | Unknown | Header | Table | RootTable | VTable | Struct | String
  | Vector | Union | Padding.

#[global] Instance eq_dec : EqDecision t.
Proof. solve_decision. Defined.

Definition value (x : t) : N :=
  match x with
  | Unknown => 0 | Header => 1 | Table => 2 | RootTable => 3 | VTable => 4
  | Struct => 5 | String => 6 | Vector => 7 | Union => 8 | Padding => 9
  end.
End BinarySectionType.

(** ** The reflection API ([flatbuffers/reflection.h], an external header)

    The header includes it and uses [reflection::BaseType],
    [reflection::Object], [reflection::Field] and [reflection::Schema]; their
    declarations are not part of the repository's sources. *)

Module reflection.

(** Modelled from the spec: the enumeration [reflection::BaseType], which
    [GetRegionType] switches over.  The twelve scalar enumerators are the
    ones named by the switch; the others are the declared-type kinds of
    §6 (string, vector, object = struct or table, union) together with
    [None] and [Array]. *)
Inductive BaseType : Set :=
  | None | UType | Bool | Byte | UByte | Short | UShort | Int | UInt
  | Long | ULong | Float | Double | String | Vector | Obj | Union | Array.

#[global] Instance BaseType_eq_dec : EqDecision BaseType.
Proof. solve_decision. Defined.

(** Modelled from the spec: the byte width of a fixed-width scalar kind
    (§3: 8/16/32/64-bit integers, 32- and 64-bit floats); [0] for a kind
    that is not a scalar. *)
Definition BaseType_size (bt : BaseType) : N :=
  match bt with
  | UType | Bool | Byte | UByte => 1
  | Short | UShort => 2
  | Int | UInt | Float => 4
  | Long | ULong | Double => 8
  | _ => 0
  end.

(** The base types [GetRegionType] has a [case] for. *)
Definition is_scalar (bt : BaseType) : bool :=
  match bt with
  | UType | Bool | Byte | UByte | Short | UShort | Int | UInt
  | Long | ULong | Float | Double => true
  | _ => false
  end.

(** Modelled from the spec (§6): a declared type: its kind, the element
    kind of a vector, and the index of the object (struct or table) or of the
    union's enumeration it refers to. *)
Record Type_ := {
  base_type : BaseType;
  element : BaseType;
  index : N
}.

(** Modelled from the spec (§6): a field has an id, a name and a declared
    type; a struct field also has its constant byte offset in the struct
    (§4.5). *)
Record Field := {
  field_name : string;
  field_type : Type_;
  field_id : N;
  field_offset : N
}.

(** Modelled from the spec (§6): an object definition. *)
Record Object := {
  object_name : string;
  object_fields : list Field;
  is_struct : bool;
  bytesize : N
}.

(** Modelled from the spec (§6): "per union field, the set of possible
    target objects indexed by tag value". *)
Record EnumVal := {
  enumval_name : string;
  enumval_value : N;
  union_type : Type_
}.

Record Enum := {
  enum_name : string;
  enum_values : list EnumVal
}.

(** Modelled from the spec (§1, §4.2): the reflection graph: object
    definitions, union enumerations, the declared root object and the file
    identifier (the empty string when the schema declares none). *)
Record Schema := {
  objects : list Object;
  enums : list Enum;
  root_table : Object;
  file_ident : string
}.

End reflection.

(** ** Scalars read through a raw pointer *)

(** The fixed-width integer types [GetScalar] is instantiated at. *)
Inductive ScalarType : Set :=
  | uint8_t | uint16_t | uint32_t | uint64_t
  | int8_t | int16_t | int32_t | int64_t.

Definition sizeof (T : ScalarType) : nat :=
  match T with
  | uint8_t | int8_t => 1
  | uint16_t | int16_t => 2
  | uint32_t | int32_t => 4
  | uint64_t | int64_t => 8
  end.

Definition is_signed (T : ScalarType) : bool :=
  match T with
  | int8_t | int16_t | int32_t | int64_t => true
  | _ => false
  end.

(** [const uint8_t *]: the byte at each offset from the pointer. *)
Definition pointer : Type := N → Byte.byte.

(** [p + offset] *)
Definition ptr_add (p : pointer) (offset : N) : pointer :=
  λ i, p (offset + i).

(** The object representation of a [width]-byte integer stored at [p], on
    a little-endian host. *)
Fixpoint load_le (p : pointer) (at_ : N) (width : nat) : N :=
  match width with
  | O => 0
  | S w => Byte.to_N (p at_) + 256 * load_le p (N.succ at_) w
  end.

(** The value of type [T] whose object representation is [raw]. *)
Definition reinterpret (T : ScalarType) (raw : N) : Z :=
  let bits := (8 * Z.of_nat (sizeof T))%Z in
  if is_signed T && (2 ^ (bits - 1) <=? Z.of_N raw)%Z
  then (Z.of_N raw - 2 ^ bits)%Z
  else Z.of_N raw.

(** [template<typename T> T GetScalar(const uint8_t *binary)]:
    [*reinterpret_cast<const T *>(binary)]. *)
Definition GetScalar (T : ScalarType) (binary : pointer) : Z :=
  reinterpret T (load_le binary 0 (sizeof T)).

(** ** Regions and sections *)

Record BinaryRegion := {
  offset : N;
  length : N;
  type : BinaryRegionType.t;
  array_length : N;
  points_to_offset : N;
  comment : string
}.

(** [BinaryRegion{}]: every member at its default member initializer. *)
Definition BinaryRegion_default : BinaryRegion := {|
  offset := 0;
  length := 0;
  type := BinaryRegionType.Unknown;
  array_length := 0;
  points_to_offset := 0;
  comment := ""
|}.

Record BinarySection := {
  name : string;
  section_type : BinarySectionType.t;
  regions : list BinaryRegion
}.

(** The start of a region, under a name that a parameter called [offset]
    does not hide. *)
Definition region_offset (r : BinaryRegion) : N := offset r.

Definition BinarySection_default : BinarySection := {|
  name := "";
  section_type := BinarySectionType.Unknown;
  regions := []
|}.

(** Member-wise assignment to a region, as C++ code filling in a
    default-constructed [BinaryRegion] does. *)
Definition set_offset (v : N) (r : BinaryRegion) : BinaryRegion :=
  {| offset := v; length := length r; type := type r;
     array_length := array_length r; points_to_offset := points_to_offset r;
     comment := comment r |}.
Definition set_length (v : N) (r : BinaryRegion) : BinaryRegion :=
  {| offset := offset r; length := v; type := type r;
     array_length := array_length r; points_to_offset := points_to_offset r;
     comment := comment r |}.
Definition set_type (v : BinaryRegionType.t) (r : BinaryRegion) : BinaryRegion :=
  {| offset := offset r; length := length r; type := v;
     array_length := array_length r; points_to_offset := points_to_offset r;
     comment := comment r |}.
Definition set_array_length (v : N) (r : BinaryRegion) : BinaryRegion :=
  {| offset := offset r; length := length r; type := type r;
     array_length := v; points_to_offset := points_to_offset r;
     comment := comment r |}.
Definition set_points_to_offset (v : N) (r : BinaryRegion) : BinaryRegion :=
  {| offset := offset r; length := length r; type := type r;
     array_length := array_length r; points_to_offset := v;
     comment := comment r |}.
Definition set_comment (v : string) (r : BinaryRegion) : BinaryRegion :=
  {| offset := offset r; length := length r; type := type r;
     array_length := array_length r; points_to_offset := points_to_offset r;
     comment := v |}.

(** What a region is meant to say: where it is, what it holds, whether it
    is an inline array (and of how many elements) and whether it is an
    indirection (and to which absolute offset). *)
Record RegionInfo := {
  info_offset : N;
  info_length : N;
  info_type : BinaryRegionType.t;
  info_array : option N;
  info_points_to : option N;
  info_comment : string
}.

(** The [BinaryRegion] that records a [RegionInfo]: the members that apply
    are assigned, the others keep their default. *)
Definition emit_region (i : RegionInfo) : BinaryRegion :=
  let r := set_comment (info_comment i)
             (set_type (info_type i)
                (set_length (info_length i)
                   (set_offset (info_offset i) BinaryRegion_default))) in
  let r := match info_array i with
           | Some n => set_array_length n r
           | None => r
           end in
  match info_points_to i with
  | Some target => set_points_to_offset target r
  | None => r
  end.

(** ** [GetRegionType] and [ToString] *)

Definition GetRegionType (base_type : reflection.BaseType) : BinaryRegionType.t :=
  match base_type with
  | reflection.UType => BinaryRegionType.Uint8
  | reflection.Bool => BinaryRegionType.Uint8
  | reflection.Byte => BinaryRegionType.Uint8
  | reflection.UByte => BinaryRegionType.Uint8
  | reflection.Short => BinaryRegionType.Int16
  | reflection.UShort => BinaryRegionType.Uint16
  | reflection.Int => BinaryRegionType.Uint32
  | reflection.UInt => BinaryRegionType.Uint32
  | reflection.Long => BinaryRegionType.Int64
  | reflection.ULong => BinaryRegionType.Uint64
  | reflection.Float => BinaryRegionType.Float
  | reflection.Double => BinaryRegionType.Double
  | _ => BinaryRegionType.Unknown
  end.

Definition ToString (type : BinaryRegionType.t) : string :=
  match type with
  | BinaryRegionType.UOffset => "UOffset32"
  | BinaryRegionType.SOffset => "SOffset32"
  | BinaryRegionType.VOffset => "VOffset16"
  | BinaryRegionType.Bool => "bool"
  | BinaryRegionType.Char => "char"
  | BinaryRegionType.Byte => "int8_t"
  | BinaryRegionType.Uint8 => "uint8_t"
  | BinaryRegionType.Uint16 => "uint16_t"
  | BinaryRegionType.Uint32 => "uint32_t"
  | BinaryRegionType.Uint64 => "uint64_t"
  | BinaryRegionType.Int8 => "int8_t"
  | BinaryRegionType.Int16 => "int16_t"
  | BinaryRegionType.Int32 => "int32_t"
  | BinaryRegionType.Int64 => "int64_t"
  | BinaryRegionType.Double => "double"
  | BinaryRegionType.Float => "float"
  | BinaryRegionType.Unknown => "?uint8_t"
  end.

(** The byte width of one element of a region type: the width of the C
    type [ToString] names for it ([UOffset32], [VOffset16], [uint8_t], ...). *)
Definition region_type_width (type : BinaryRegionType.t) : N :=
  match type with
  | BinaryRegionType.Unknown | BinaryRegionType.Bool | BinaryRegionType.Byte
  | BinaryRegionType.Char | BinaryRegionType.Uint8 | BinaryRegionType.Int8 => 1
  | BinaryRegionType.VOffset | BinaryRegionType.Uint16
  | BinaryRegionType.Int16 => 2
  | BinaryRegionType.UOffset | BinaryRegionType.SOffset
  | BinaryRegionType.Uint32 | BinaryRegionType.Int32
  | BinaryRegionType.Float => 4
  | BinaryRegionType.Uint64 | BinaryRegionType.Int64
  | BinaryRegionType.Double => 8
  end.

(** Whether a region type is a signed integer, an unsigned integer, or
    another kind of datum. *)
Inductive Kind : Set := SignedInt | UnsignedInt | Boolean | Floating | Other.

Definition region_type_kind (type : BinaryRegionType.t) : Kind :=
  match type with
  | BinaryRegionType.Byte | BinaryRegionType.Int8 | BinaryRegionType.Int16
  | BinaryRegionType.Int32 | BinaryRegionType.Int64 => SignedInt
  | BinaryRegionType.Uint8 | BinaryRegionType.Uint16 | BinaryRegionType.Uint32
  | BinaryRegionType.Uint64 => UnsignedInt
  | BinaryRegionType.Bool => Boolean
  | BinaryRegionType.Float | BinaryRegionType.Double => Floating
  | _ => Other
  end.

Definition base_type_kind (bt : reflection.BaseType) : Kind :=
  match bt with
  | reflection.Byte | reflection.Short | reflection.Int | reflection.Long =>
      SignedInt
  | reflection.UType | reflection.UByte | reflection.UShort | reflection.UInt
  | reflection.ULong => UnsignedInt
  | reflection.Bool => Boolean
  | reflection.Float | reflection.Double => Floating
  | _ => Other
  end.

(** ** 64-bit offset arithmetic *)

Definition two64 : N := 2 ^ 64.

(** [a + b] on [uint64_t]. *)
Definition add64 (a b : N) : N := (a + b) mod two64.

(** [a - b] on [uint64_t], for a [b] that was read as a signed integer and
    converted. *)
Definition sub64 (a : N) (b : Z) : N := Z.to_N ((Z.of_N a - b) mod Z.of_N two64).

(** ** The annotator *)

Module VTable.
(** [struct VTable::Entry] *)
Record Entry := {
  field : reflection.Field;
  offset_from_table : N
}.

(** [struct VTable]; [fields] maps a field id to its entry. *)
Record t := {
  fields : gmap N Entry;
  vtable_size : N;
  table_size : N
}.

Definition empty : t := {| fields := ∅; vtable_size := 0; table_size := 0 |}.
End VTable.

(** The mutable members of [class BinaryAnnotator]; the [const] members
    ([schema_], [binary_]) are the variables of the section below. *)
Record BinaryAnnotator := {
  vtables_ : gmap N VTable.t;
  strings_ : gset N;
  sections_ : gmap N BinarySection
}.

(** The members as the constructor leaves them: it initializes only the
    [const] members, so the three containers start out empty. *)
Definition BinaryAnnotator_new : BinaryAnnotator := {|
  vtables_ := ∅;
  strings_ := ∅;
  sections_ := ∅
|}.

(** A member function: it runs on the object's mutable members and either
    returns (a value and the members as it leaves them) or has not returned
    within the recursion budget it was given ([None]). *)
Definition M (A : Type) : Type := BinaryAnnotator → option (A * BinaryAnnotator).

Definition ret {A} (a : A) : M A := λ st, Some (a, st).

Definition bind {A B} (m : M A) (k : A → M B) : M B :=
  λ st, match m st with
        | Some (a, st') => k a st'
        | None => None
        end.

Definition diverge {A} : M A := λ _, None.

Declare Scope annot_scope.
Delimit Scope annot_scope with annot.
Notation "x <- m ;; k" := (bind m (λ x, k))
  (at level 100, m at next level, right associativity) : annot_scope.
Notation "m ;;; k" := (bind m (λ _, k))
  (at level 100, right associativity) : annot_scope.
#[local] Open Scope annot_scope.

(** A [for] loop over [l] that updates a local accumulator. *)
Fixpoint foldM {A B} (body : B → A → M B) (acc : B) (l : list A) : M B :=
  match l with
  | [] => ret acc
  | x :: l' => acc' <- body acc x ;; foldM body acc' l'
  end.

(** The same loop for a computation that touches no member. *)
Fixpoint fold_option {A B} (body : B → A → option B) (acc : B) (l : list A)
  : option B :=
  match l with
  | [] => Some acc
  | x :: l' => match body acc x with
               | Some acc' => fold_option body acc' l'
               | None => None
               end
  end.

(** Modelled from the spec: how a section enters the result map (the
    declaration of [sections_] is in the header, the code that fills it is
    not).  §3: entities "are immutable once inserted into the result map",
    so a section is stored under its offset unless the key is taken. *)
Definition AddSection (offset : N) (section : BinarySection) : M unit :=
  λ st, Some ((), match sections_ st !! offset with
                  | Some _ => st
                  | None =>
                      {| vtables_ := vtables_ st; strings_ := strings_ st;
                         sections_ := <[offset := section]> (sections_ st) |}
                  end).

(** The indices [0 .. n-1] of a counted loop. *)
Definition indices (n : N) : list N := N.of_nat <$> seq 0 (N.to_nat n).

(** Sorting by a numeric key (ascending). *)
Definition key_le {A} (key : A → N) (a b : A) : Prop := key a ≤ key b.

#[global] Instance key_le_dec {A} (key : A → N) : RelDecision (key_le key).
Proof. intros a b. unfold key_le. apply _. Defined.

Definition sort_by {A} (key : A → N) (l : list A) : list A :=
  merge_sort (key_le key) l.

Definition region_info (offset length : N) (type : BinaryRegionType.t)
    (comment : string) : RegionInfo :=
  {| info_offset := offset; info_length := length; info_type := type;
     info_array := None; info_points_to := None; info_comment := comment |}.

(** A plain region, an indirection region and an inline-array region. *)
Definition scalar_region (offset length : N) (type : BinaryRegionType.t)
    (comment : string) : BinaryRegion :=
  emit_region (region_info offset length type comment).

Definition offset_region (offset length : N) (type : BinaryRegionType.t)
    (target : N) (comment : string) : BinaryRegion :=
  emit_region {| info_offset := offset; info_length := length;
                 info_type := type; info_array := None;
                 info_points_to := Some target; info_comment := comment |}.

Definition array_region (offset : N) (type : BinaryRegionType.t) (count : N)
    (comment : string) : BinaryRegion :=
  emit_region {| info_offset := offset;
                 info_length := count * region_type_width type;
                 info_type := type; info_array := Some count;
                 info_points_to := None; info_comment := comment |}.

Section Annotator.

(** [const reflection::Schema *schema_] *)
Variable schema_ : reflection.Schema.

(** [const uint8_t *binary_] *)
Variable binary_ : pointer.

(** [template<typename T> T BinaryAnnotator::GetScalar(uint64_t offset)]:
    [*reinterpret_cast<const T *>(binary_ + offset)]. *)
Definition BinaryAnnotator_GetScalar (T : ScalarType) (offset : N) : Z :=
  GetScalar T (ptr_add binary_ offset).

(** The unsigned reads, as offsets and counts. *)
Definition read_u8 (offset : N) : N :=
  Z.to_N (BinaryAnnotator_GetScalar uint8_t offset).
Definition read_u16 (offset : N) : N :=
  Z.to_N (BinaryAnnotator_GetScalar uint16_t offset).
Definition read_u32 (offset : N) : N :=
  Z.to_N (BinaryAnnotator_GetScalar uint32_t offset).

(** Modelled from the spec: the length of the file identifier, a constant
    of the flatbuffers base header that is not among the sources (§4.2: "a
    fixed-length character-array region"). *)
Variable kFileIdentifierLength : N.

(** Modelled from the spec: [BinaryAnnotator::BuildHeader], declared in
    the header and defined elsewhere.  §4.2: reads a 4-byte forward offset at
    [offset]; the root object's absolute offset is [offset + value]; emits a
    Header section containing that offset region plus, if the schema declares
    a file identifier, a fixed-length character-array region immediately
    following; returns the root offset. *)
Definition BuildHeader (offset : N) : M N :=
  let root_table_offset := add64 offset (read_u32 offset) in
  let root_region :=
    offset_region offset 4 BinaryRegionType.UOffset root_table_offset
      "offset to root table" in
  let ident_regions :=
    if decide (reflection.file_ident schema_ = "") then []
    else [array_region (add64 offset 4) BinaryRegionType.Char
            kFileIdentifierLength "file identifier"] in
  AddSection offset
    {| name := ""; section_type := BinarySectionType.Header;
       regions := root_region :: ident_regions |};;;
  ret root_table_offset.

(** The fields of an object in ascending field-id order, each with its
    index in that order. *)
Definition fields_by_id (table : reflection.Object)
  : list (N * reflection.Field) :=
  imap (λ i f, (N.of_nat i, f))
    (sort_by reflection.field_id (reflection.object_fields table)).

(** The slot of the field of index [field_index] in the vtable at [offset]. *)
Definition slot_offset (offset field_index : N) : N :=
  add64 (add64 offset 4) (2 * field_index).

(** Modelled from the spec: the decode of the vtable at [offset] for the
    object type [table] (§4.3, "Otherwise: ..."): the two 2-byte sizes, then
    for each declared field, in ascending field-id order, its slot when
    [V + 4 + 2*field_index < V + vtable_size]; the slots behind the last
    schema-known one are unknown-field regions. *)
Definition known_slots (offset : N) (table : reflection.Object)
  : list (reflection.Field * N) :=
  omap (λ '(i, f),
        if slot_offset offset i <? add64 offset (read_u16 offset)
        then Some (f, slot_offset offset i) else None)
       (fields_by_id table).

Definition unknown_slots (offset : N) (table : reflection.Object) : list N :=
  let declared := N.of_nat (List.length (reflection.object_fields table)) in
  let vtable_size := read_u16 offset in
  let count := (vtable_size - (4 + 2 * declared) + 1) / 2 in
  (λ j, slot_offset offset (declared + j)) <$> indices count.

Definition decode_vtable (offset : N) (table : reflection.Object) : VTable.t :=
  {| VTable.fields :=
       list_to_map
         ((λ '(f, slot),
            (reflection.field_id f,
             {| VTable.field := f;
                VTable.offset_from_table := read_u16 slot |}))
          <$> known_slots offset table);
     VTable.vtable_size := read_u16 offset;
     VTable.table_size := read_u16 (add64 offset 2) |}.

Definition vtable_section (offset : N) (table : reflection.Object)
  : BinarySection :=
  {| name := reflection.object_name table;
     section_type := BinarySectionType.VTable;
     regions :=
       [scalar_region offset 2 BinaryRegionType.Uint16 "size of this vtable";
        scalar_region (add64 offset 2) 2 BinaryRegionType.Uint16
          "size of referring table"]
       ++ ((λ '(f, slot),
             scalar_region slot 2 BinaryRegionType.VOffset
               (reflection.field_name f)) <$> known_slots offset table)
       ++ ((λ slot,
             scalar_region slot 2 BinaryRegionType.VOffset "unknown field")
           <$> unknown_slots offset table) |}.

(** Modelled from the spec: [BinaryAnnotator::BuildVTable], declared in
    the header and defined elsewhere.  §4.3: if the vtable offset is already
    cached, the decode is skipped; otherwise the vtable is decoded, and a
    VTable section is built and cached at the offset. *)
Definition BuildVTable (offset : N) (table : reflection.Object) : M unit :=
  λ st,
    match vtables_ st !! offset with
    | Some _ => Some ((), st)
    | None =>
        AddSection offset (vtable_section offset table)
          {| vtables_ := <[offset := decode_vtable offset table]> (vtables_ st);
             strings_ := strings_ st;
             sections_ := sections_ st |}
    end.

(** [vtables_[offset]], read after [BuildVTable] has run. *)
Definition cached_vtable (offset : N) : M VTable.t :=
  λ st, Some (default VTable.empty (vtables_ st !! offset), st).

(** Modelled from the spec: [BinaryAnnotator::BuildString], declared in
    the header and defined elsewhere.  §4.6: checks the seen-string-offsets
    set and skips a string already seen; otherwise reads the 4-byte length
    [L] and emits the section: the length, then one region of [L] bytes of
    content. *)
Definition BuildString (offset : N) (table : reflection.Object)
    (field : reflection.Field) : M unit :=
  λ st,
    if decide (offset ∈ strings_ st) then Some ((), st)
    else
      AddSection offset
        {| name := reflection.field_name field;
           section_type := BinarySectionType.String;
           regions :=
             [scalar_region offset 4 BinaryRegionType.Uint32 "length of string";
              array_region (add64 offset 4) BinaryRegionType.Char
                (read_u32 offset) "string literal"] |}
        {| vtables_ := vtables_ st;
           strings_ := {[offset]} ∪ strings_ st;
           sections_ := sections_ st |}.

(** Modelled from the spec: [BinaryAnnotator::BuildStruct], declared in
    the header and defined elsewhere.  §4.5: walks the field list of the
    struct's object type, emitting one region per scalar field at its
    schema-declared offset and recursing for nested-struct fields, and returns
    [start_offset + struct_byte_size].  The recursion follows the schema: it
    does not return ([None]) on a struct type that contains itself. *)
Fixpoint BuildStruct_rec (depth : nat) (offset : N)
    (regions : list BinaryRegion) (structure : reflection.Object)
  : option (N * list BinaryRegion) :=
  match depth with
  | O => None
  | S depth' =>
      match
        fold_option
          (λ regions field,
             let field_offset := add64 offset (reflection.field_offset field) in
             let bt := reflection.base_type (reflection.field_type field) in
             if reflection.is_scalar bt then
               Some (regions ++
                     [scalar_region field_offset (reflection.BaseType_size bt)
                        (GetRegionType bt) (reflection.field_name field)])
             else
               match bt, reflection.objects schema_
                           !! N.to_nat (reflection.index
                                          (reflection.field_type field)) with
               | reflection.Obj, Some nested =>
                   snd <$> BuildStruct_rec depth' field_offset regions nested
               | _, _ => Some regions
               end)
          regions (reflection.object_fields structure)
      with
      | Some regions' =>
          Some (add64 offset (reflection.bytesize structure), regions')
      | None => None
      end
  end.

(** A nesting of struct types deeper than the number of object types goes
    through some type twice, and then never ends. *)
Definition BuildStruct (offset : N) (regions : list BinaryRegion)
    (structure : reflection.Object) : option (N * list BinaryRegion) :=
  BuildStruct_rec (S (List.length (reflection.objects schema_)))
    offset regions structure.

(** [BuildStruct] called from a member function. *)
Definition call_BuildStruct (offset : N) (regions : list BinaryRegion)
    (structure : reflection.Object) : M (list BinaryRegion) :=
  match BuildStruct offset regions structure with
  | Some (_, regions') => ret regions'
  | None => diverge
  end.

(** The object type a declared type refers to. *)
Definition object_of (ty : reflection.Type_) : option reflection.Object :=
  reflection.objects schema_ !! N.to_nat (reflection.index ty).

(** The resolved target of the 4-byte forward offset stored at [slot]. *)
Definition forward_target (slot : N) : N := add64 slot (read_u32 slot).

(** The table decoder calls the vector and union decoders, which call it
    back; [BuildTable_] below stands for the member function [BuildTable] in
    the bodies of the other two and in its own. *)
Section Bodies.

Variable BuildTable_ :
  N → BinarySectionType.t → reflection.Object → M unit.

(** Modelled from the spec: [BinaryAnnotator::BuildUnion], declared in the
    header and defined elsewhere.  §4.8: given the tag value, resolves which
    concrete object the union's stored offset points to, recurses into that
    target's decoder and returns the resolved type's display name.  A tag
    without a schema-declared target resolves to nothing and the name is
    empty. *)
Definition BuildUnion (offset : N) (realized_type : N)
    (field : reflection.Field) : M string :=
  match reflection.enums schema_
          !! N.to_nat (reflection.index (reflection.field_type field)) with
  | None => ret ""
  | Some enum =>
      match List.find (λ ev, reflection.enumval_value ev =? realized_type)
              (reflection.enum_values enum) with
      | None => ret ""
      | Some ev =>
          match reflection.base_type (reflection.union_type ev),
                object_of (reflection.union_type ev) with
          | reflection.Obj, Some target =>
              (if reflection.is_struct target then
                 regions <- call_BuildStruct offset [] target;;
                 AddSection offset
                   {| name := reflection.object_name target;
                      section_type := BinarySectionType.Struct;
                      regions := regions |}
               else BuildTable_ offset BinarySectionType.Table target);;;
              ret (reflection.enumval_name ev)
          | _, _ => ret (reflection.enumval_name ev)
          end
      end
  end.

(** A union value is paired with a companion discriminator holding the
    realized type tag (§4.8): the field of the preceding id in the same
    table. *)
Definition companion (vtable : VTable.t) (field : reflection.Field)
  : option VTable.Entry :=
  if decide (reflection.field_id field = 0) then None
  else VTable.fields vtable !! (reflection.field_id field - 1).

(** One element of a vector whose elements are references (§4.7): a 4-byte
    forward offset relative to the element's own slot, resolved and recursed
    as a table field reference is. *)
Definition vector_reference (field : reflection.Field)
    (table : reflection.Object) (tag_of : N → N)
    (regions : list BinaryRegion) (i_slot : N * N)
  : M (list BinaryRegion) :=
  let '(i, slot) := i_slot in
  let target := forward_target slot in
  let ty := reflection.field_type field in
  match reflection.element ty with
  | reflection.String =>
      BuildString target table field;;;
      ret (regions ++ [offset_region slot 4 BinaryRegionType.UOffset target
                         (reflection.field_name field)])
  | reflection.Union =>
      resolved <- BuildUnion target (tag_of i) field;;
      ret (regions ++ [offset_region slot 4 BinaryRegionType.UOffset target
                         resolved])
  | _ =>
      match object_of ty with
      | Some element_type =>
          BuildTable_ target BinarySectionType.Table element_type;;;
          ret (regions ++ [offset_region slot 4 BinaryRegionType.UOffset
                             target (reflection.field_name field)])
      | None => ret regions
      end
  end.

(** Modelled from the spec: [BinaryAnnotator::BuildVector], declared in
    the header and defined elsewhere.  §4.7: reads the 4-byte element count
    [N]; scalar and struct elements are inline and contiguous after the count,
    one region (or one struct's regions) per element; reference-typed elements
    are [N] contiguous 4-byte forward offsets.  The tags of a vector of unions
    are the elements of the companion vector in the parent table. *)
Definition BuildVector (offset : N) (table : reflection.Object)
    (field : reflection.Field) (parent_table_offset : N)
    (vtable : VTable.t) : M unit :=
  let count := read_u32 offset in
  let ty := reflection.field_type field in
  let elem := reflection.element ty in
  let first := add64 offset 4 in
  let count_region :=
    scalar_region offset 4 BinaryRegionType.Uint32 "length of vector" in
  regions <-
    (if reflection.is_scalar elem then
       ret ((λ i,
              scalar_region
                (add64 first (i * reflection.BaseType_size elem))
                (reflection.BaseType_size elem) (GetRegionType elem)
                (reflection.field_name field)) <$> indices count)
     else
       match elem, object_of ty with
       | reflection.Obj, Some element_type =>
           if reflection.is_struct element_type then
             foldM (λ regions i,
                      call_BuildStruct
                        (add64 first (i * reflection.bytesize element_type))
                        regions element_type)
                   [] (indices count)
           else
             foldM (vector_reference field table (λ _, 0)) []
                   ((λ i, (i, add64 first (4 * i))) <$> indices count)
       | reflection.String, _ =>
           foldM (vector_reference field table (λ _, 0)) []
                 ((λ i, (i, add64 first (4 * i))) <$> indices count)
       | reflection.Union, _ =>
           let tags :=
             match companion vtable field with
             | Some e =>
                 if VTable.offset_from_table e =? 0 then (λ _, 0)
                 else
                   let types :=
                     forward_target
                       (add64 parent_table_offset
                          (VTable.offset_from_table e)) in
                   (λ i, read_u8 (add64 (add64 types 4) i))
             | None => (λ _, 0)
             end in
           foldM (vector_reference field table tags) []
                 ((λ i, (i, add64 first (4 * i))) <$> indices count)
       | _, _ => ret []
       end);;
  AddSection offset
    {| name := reflection.field_name field;
       section_type := BinarySectionType.Vector;
       regions := count_region :: regions |}.

(** Modelled from the spec: the dispatch of [BuildTable] on one field that
    the vtable says is present at [offset_from_table] (§4.4): a scalar is one
    fixed-width region; a struct is decoded inline; a string, table, vector or
    union is a 4-byte forward offset whose target
    [(T + field_offset) + value] is decoded by the matching decoder. *)
Definition BuildTableField (offset : N) (table : reflection.Object)
    (vtable : VTable.t) (regions : list BinaryRegion)
    (entry : VTable.Entry) : M (list BinaryRegion) :=
  let field := VTable.field entry in
  let ty := reflection.field_type field in
  let bt := reflection.base_type ty in
  let field_offset := add64 offset (VTable.offset_from_table entry) in
  let target := forward_target field_offset in
  let reference comment :=
    offset_region field_offset 4 BinaryRegionType.UOffset target comment in
  if reflection.is_scalar bt then
    ret (regions ++
         [scalar_region field_offset (reflection.BaseType_size bt)
            (GetRegionType bt) (reflection.field_name field)])
  else
    match bt with
    | reflection.Obj =>
        match object_of ty with
        | Some child =>
            if reflection.is_struct child then
              call_BuildStruct field_offset regions child
            else
              BuildTable_ target BinarySectionType.Table child;;;
              ret (regions ++ [reference (reflection.field_name field)])
        | None => ret regions
        end
    | reflection.String =>
        BuildString target table field;;;
        ret (regions ++ [reference (reflection.field_name field)])
    | reflection.Vector =>
        BuildVector target table field offset vtable;;;
        ret (regions ++ [reference (reflection.field_name field)])
    | reflection.Union =>
        let realized_type :=
          match companion vtable field with
          | Some e =>
              if VTable.offset_from_table e =? 0 then 0
              else read_u8 (add64 offset (VTable.offset_from_table e))
          | None => 0
          end in
        resolved <- BuildUnion target realized_type field;;
        ret (regions ++ [reference resolved])
    | _ => ret regions
    end.

(** The offset of the vtable of the table at [offset]: the table starts
    with a 4-byte backward offset (§4.3: [V = T - value]). *)
Definition vtable_offset_of (offset : N) : N :=
  sub64 offset (BinaryAnnotator_GetScalar int32_t offset).

(** The entries of a cached vtable in ascending field-id order. *)
Definition entries_by_id (vtable : VTable.t) : list VTable.Entry :=
  snd <$> sort_by fst (map_to_list (VTable.fields vtable)).

(** Modelled from the spec: the body of [BinaryAnnotator::BuildTable],
    declared in the header and defined elsewhere.  §4.3-§4.4: resolves the
    vtable, decodes every field with a nonzero offset, and emits a section of
    the given type whose regions are the leading vtable-offset region and
    then the field regions in the order of their offsets. *)
Definition BuildTable_body (offset : N) (type : BinarySectionType.t)
    (table : reflection.Object) : M unit :=
  let vtable_offset := vtable_offset_of offset in
  BuildVTable vtable_offset table;;;
  vtable <- cached_vtable vtable_offset;;
  regions <-
    foldM (λ regions entry,
             if VTable.offset_from_table entry =? 0 then ret regions
             else BuildTableField offset table vtable regions entry)
          [] (entries_by_id vtable);;
  AddSection offset
    {| name := reflection.object_name table;
       section_type := type;
       regions :=
         offset_region offset 4 BinaryRegionType.SOffset vtable_offset
           "offset to vtable"
         :: sort_by region_offset regions |}.

End Bodies.
End Annotator.

Section Annotate.

Variable schema_ : reflection.Schema.
Variable binary_ : pointer.
Variable kFileIdentifierLength : N.

(** Modelled from the spec: [BinaryAnnotator::BuildTable], declared in the
    header and defined elsewhere: a recursive member function without a depth
    argument.  [fuel] bounds the nesting of calls that the embedding follows:
    [None] says that the call has not returned within that nesting. *)
Fixpoint BuildTable (fuel : nat) (offset : N) (type : BinarySectionType.t)
    (table : reflection.Object) : M unit :=
  match fuel with
  | O => diverge
  | S fuel' =>
      BuildTable_body schema_ binary_ (BuildTable fuel') offset type table
  end.

(** Modelled from the spec (§3): "a section's total span is the sum of its
    regions' lengths"; the section keyed at [key] spans
    [[key, key + span)]. *)
Definition section_span (s : BinarySection) : N :=
  foldr (λ r acc, length r + acc) 0 (regions s).

Definition section_end (key : N) (s : BinarySection) : N :=
  key + section_span s.

Definition covers (key : N) (s : BinarySection) (i : N) : Prop :=
  key ≤ i ∧ i < section_end key s.

(** The sections of the result map in ascending offset order, as an
    iteration over the [std::map] visits them. *)
Definition in_order (sections : gmap N BinarySection)
  : list (N * BinarySection) :=
  sort_by fst (map_to_list sections).

Definition padding_section (offset length : N) : BinarySection :=
  {| name := "";
     section_type := BinarySectionType.Padding;
     regions := [array_region offset BinaryRegionType.Uint8 length "padding"] |}.

(** Modelled from the spec (§4.9): the walk of the gap-fill pass.  The
    cursor is the end of the previous section; wherever the next section's
    offset exceeds it, and after the last section up to the buffer length, a
    Padding section spanning exactly that gap is due. *)
Fixpoint missing_sections (binary_length cursor : N)
    (sections : list (N * BinarySection)) : list (N * BinarySection) :=
  match sections with
  | [] =>
      if cursor <? binary_length
      then [(cursor, padding_section cursor (binary_length - cursor))]
      else []
  | (key, s) :: rest =>
      (if cursor <? key
       then [(cursor, padding_section cursor (key - cursor))]
       else [])
      ++ missing_sections binary_length (section_end key s) rest
  end.

(** Modelled from the spec: [BinaryAnnotator::FixMissingSections],
    declared in the header and defined elsewhere (§4.9).  The header declares
    it without arguments and the class keeps no length of the binary; the
    buffer length the spec's pass runs up to is the argument
    [binary_length]. *)
Definition FixMissingSections (binary_length : N) : M unit :=
  λ st,
    foldM (λ _ '(key, s), AddSection key s) ()
      (missing_sections binary_length 0 (in_order (sections_ st))) st.

(** Modelled from the spec: [BinaryAnnotator::Annotate], declared in the
    header and defined elsewhere.  §2: the orchestrator "drives Header → root
    object decode → gap-fill, returning the final map".  It is a member
    function of the object that owns [vtables_], [strings_] and [sections_]:
    it runs on those members and returns the map by value.  [BuildRoot] is
    its decode of the header and of the root table (§4.9: "the root decode
    closure"). *)
Definition BuildRoot (fuel : nat) : M unit :=
  root_table_offset <- BuildHeader schema_ binary_ kFileIdentifierLength 0;;
  BuildTable fuel root_table_offset BinarySectionType.RootTable
    (reflection.root_table schema_).

Definition Annotate (fuel : nat) (binary_length : N)
  : M (gmap N BinarySection) :=
  BuildRoot fuel;;;
  FixMissingSections binary_length;;;
  (λ st, Some (sections_ st, st)).

End Annotate.

(** ** The reader of the specification

    §4.1 describes a bounds-checked reader; it is written here from those
    words, for a buffer of [binary_length] bytes, to be compared with
    [BinaryAnnotator_GetScalar]. *)

Inductive ReadError : Set :=
  | OutOfBounds (offset : N) (width : N).

Definition read_spec (binary_length : N) (binary_ : pointer)
    (T : ScalarType) (offset : N) : Z + ReadError :=
  if offset + N.of_nat (sizeof T) <=? binary_length
  then inl (GetScalar T (ptr_add binary_ offset))
  else inr (OutOfBounds offset (N.of_nat (sizeof T))).

(** Two memories that hold the same 4-byte buffer [00 00 00 00] and differ
    behind it. *)
Definition zeros : pointer := λ _, Byte.x00.
Definition zeros_then_ff : pointer := λ i, if i <? 4 then Byte.x00 else Byte.xff.

(** ** Sample inputs *)

(** A pointer to the given bytes, followed by zero bytes. *)
Definition bytes (l : list N) : pointer :=
  λ i, default Byte.x00 (Byte.of_N (nth (N.to_nat i) l 0)).

Definition plain_type (bt : reflection.BaseType) : reflection.Type_ :=
  {| reflection.base_type := bt; reflection.element := reflection.None;
     reflection.index := 0 |}.

(** [table Monster { hp:short; name:string; }], the root type. *)
Definition Monster : reflection.Object :=
  {| reflection.object_name := "Monster";
     reflection.object_fields :=
       [{| reflection.field_name := "hp";
           reflection.field_type := plain_type reflection.Short;
           reflection.field_id := 0; reflection.field_offset := 0 |};
        {| reflection.field_name := "name";
           reflection.field_type := plain_type reflection.String;
           reflection.field_id := 1; reflection.field_offset := 0 |}];
     reflection.is_struct := false;
     reflection.bytesize := 0 |}.

Definition monster_schema : reflection.Schema :=
  {| reflection.objects := [Monster]; reflection.enums := [];
     reflection.root_table := Monster; reflection.file_ident := "" |}.

(** A 32-byte encoding of [Monster { hp = 100, name = "abc" }]: the root
    offset, the vtable at 4, the table at 12 and the string at 24. *)
Definition monster_binary : pointer :=
  bytes [12;0;0;0;  8;0;12;0;8;0;4;0;  8;0;0;0; 8;0;0;0; 100;0; 0;0;
         3;0;0;0; 97;98;99;0].

(** [table Holder { s:string; }], the root type, and a 20-byte binary in
    which the offset stored in the field [s] is 0: the string it refers to
    starts at the field itself, inside the table. *)
Definition Holder : reflection.Object :=
  {| reflection.object_name := "Holder";
     reflection.object_fields :=
       [{| reflection.field_name := "s";
           reflection.field_type := plain_type reflection.String;
           reflection.field_id := 0; reflection.field_offset := 0 |}];
     reflection.is_struct := false;
     reflection.bytesize := 0 |}.

Definition holder_schema : reflection.Schema :=
  {| reflection.objects := [Holder]; reflection.enums := [];
     reflection.root_table := Holder; reflection.file_ident := "" |}.

Definition holder_binary : pointer :=
  bytes [12;0;0;0;  6;0;8;0;4;0;  0;0;  8;0;0;0; 0;0;0;0].

(** An 8-byte binary whose root table, at 4, starts with the backward
    offset 0: its vtable is at 4 too. *)
Definition table_on_vtable_binary : pointer := bytes [4;0;0;0;  0;0;0;0].

Definition object_type (i : N) : reflection.Type_ :=
  {| reflection.base_type := reflection.Obj;
     reflection.element := reflection.None; reflection.index := i |}.

(** [table Leaf { v:short; }  table Pair { left:Leaf; right:Leaf; }], root
    type [Pair], and a 52-byte binary in which the two leaves, at 36 and 44,
    share the vtable at 28. *)
Definition Leaf : reflection.Object :=
  {| reflection.object_name := "Leaf";
     reflection.object_fields :=
       [{| reflection.field_name := "v";
           reflection.field_type := plain_type reflection.Short;
           reflection.field_id := 0; reflection.field_offset := 0 |}];
     reflection.is_struct := false;
     reflection.bytesize := 0 |}.

Definition Pair : reflection.Object :=
  {| reflection.object_name := "Pair";
     reflection.object_fields :=
       [{| reflection.field_name := "left";
           reflection.field_type := object_type 1;
           reflection.field_id := 0; reflection.field_offset := 0 |};
        {| reflection.field_name := "right";
           reflection.field_type := object_type 1;
           reflection.field_id := 1; reflection.field_offset := 0 |}];
     reflection.is_struct := false;
     reflection.bytesize := 0 |}.

Definition pair_schema : reflection.Schema :=
  {| reflection.objects := [Pair; Leaf]; reflection.enums := [];
     reflection.root_table := Pair; reflection.file_ident := "" |}.

Definition pair_binary : pointer :=
  bytes [16;0;0;0;  8;0;12;0;4;0;8;0;  0;0;0;0;
         12;0;0;0; 16;0;0;0; 20;0;0;0;
         6;0;6;0;4;0;  0;0;
         8;0;0;0; 7;0; 0;0;
         16;0;0;0; 9;0; 0;0].

(** [table Names { first:string; second:string; }] and a 36-byte binary
    in which both fields refer to the string at 28. *)
Definition Names : reflection.Object :=
  {| reflection.object_name := "Names";
     reflection.object_fields :=
       [{| reflection.field_name := "first";
           reflection.field_type := plain_type reflection.String;
           reflection.field_id := 0; reflection.field_offset := 0 |};
        {| reflection.field_name := "second";
           reflection.field_type := plain_type reflection.String;
           reflection.field_id := 1; reflection.field_offset := 0 |}];
     reflection.is_struct := false;
     reflection.bytesize := 0 |}.

Definition names_schema : reflection.Schema :=
  {| reflection.objects := [Names]; reflection.enums := [];
     reflection.root_table := Names; reflection.file_ident := "" |}.

Definition names_binary : pointer :=
  bytes [16;0;0;0;  8;0;12;0;4;0;8;0;  0;0;0;0;
         12;0;0;0; 8;0;0;0; 4;0;0;0;
         2;0;0;0; 104;105;0;0].

(** [table Child {}  table Triple { a:Child; s:string; b:Child; }], root
    type [Triple], and a 44-byte binary in which the three fields refer to
    the same offset 36. *)
Definition Child : reflection.Object :=
  {| reflection.object_name := "Child";
     reflection.object_fields := [];
     reflection.is_struct := false;
     reflection.bytesize := 0 |}.

Definition Triple : reflection.Object :=
  {| reflection.object_name := "Triple";
     reflection.object_fields :=
       [{| reflection.field_name := "a";
           reflection.field_type := object_type 1;
           reflection.field_id := 0; reflection.field_offset := 0 |};
        {| reflection.field_name := "s";
           reflection.field_type := plain_type reflection.String;
           reflection.field_id := 1; reflection.field_offset := 0 |};
        {| reflection.field_name := "b";
           reflection.field_type := object_type 1;
           reflection.field_id := 2; reflection.field_offset := 0 |}];
     reflection.is_struct := false;
     reflection.bytesize := 0 |}.

Definition triple_schema : reflection.Schema :=
  {| reflection.objects := [Triple; Child]; reflection.enums := [];
     reflection.root_table := Triple; reflection.file_ident := "" |}.

Definition triple_binary : pointer :=
  bytes [16;0;0;0;  10;0;16;0;4;0;8;0;12;0;  0;0;
         12;0;0;0; 16;0;0;0; 12;0;0;0; 8;0;0;0;
         4;0;4;0;
         4;0;0;0; 0;0;0;0].

(** [table Node { next:Node; }], the root type, and a memory in which
    every 16 bytes hold a vtable of [Node] and a table of [Node] whose field
    [next] refers to the table 16 bytes further: a chain of tables without
    end. *)
Definition Node : reflection.Object :=
  {| reflection.object_name := "Node";
     reflection.object_fields :=
       [{| reflection.field_name := "next";
           reflection.field_type := object_type 0;
           reflection.field_id := 0; reflection.field_offset := 0 |}];
     reflection.is_struct := false;
     reflection.bytesize := 0 |}.

Definition node_schema : reflection.Schema :=
  {| reflection.objects := [Node]; reflection.enums := [];
     reflection.root_table := Node; reflection.file_ident := "" |}.

Definition chain_period : list N :=
  [6;0; 0;0; 4;0;  6;0;0;0; 12;0;0;0;  0;0].

Definition chain_binary : pointer :=
  λ i, default Byte.x00
         (Byte.of_N (nth (N.to_nat (i mod 16)) chain_period 0)).

(** ** Vocabulary of the properties *)

(** [st'] holds everything [st] holds: the caches and the result map only
    grow. *)
Definition extends (st st' : BinaryAnnotator) : Prop :=
  vtables_ st ⊆ vtables_ st'
  ∧ strings_ st ⊆ strings_ st'
  ∧ sections_ st ⊆ sections_ st'.

(** A member function is stable when it only adds to the members, and
    adds nothing when it runs on members that already hold what it adds. *)
Definition Stable {A} (m : M A) : Prop :=
  ∀ st a st',
    m st = Some (a, st') →
    extends st st' ∧ ∀ st'', extends st' st'' → m st'' = Some (a, st'').

Definition is_table_type (t : BinarySectionType.t) : bool :=
  match t with
  | BinarySectionType.Table | BinarySectionType.RootTable => true
  | _ => false
  end.

(** The kinds of section that the decoders emit one at a time, without a
    cache in front of them. *)
Definition is_plain_type (t : BinarySectionType.t) : bool :=
  match t with
  | BinarySectionType.Header | BinarySectionType.Struct
  | BinarySectionType.Vector => true
  | _ => false
  end.

(** The kinds of section that the decoders emit at all. *)
Definition is_decoded_type (t : BinarySectionType.t) : bool :=
  match t with
  | BinarySectionType.Header | BinarySectionType.Table
  | BinarySectionType.RootTable | BinarySectionType.VTable
  | BinarySectionType.Struct | BinarySectionType.String
  | BinarySectionType.Vector => true
  | _ => false
  end.

(** The leading region of the table at [offset]. *)
Definition leading_region (binary_ : pointer) (offset : N) : BinaryRegion :=
  offset_region offset 4 BinaryRegionType.SOffset
    (vtable_offset_of binary_ offset) "offset to vtable".

(** The String section of the string at [offset]. *)
Definition string_section (binary_ : pointer) (offset : N)
    (field : reflection.Field) : BinarySection :=
  {| name := reflection.field_name field;
     section_type := BinarySectionType.String;
     regions :=
       [scalar_region offset 4 BinaryRegionType.Uint32 "length of string";
        array_region (add64 offset 4) BinaryRegionType.Char
          (read_u32 binary_ offset) "string literal"] |}.

(** The shape of the decoders: what a decoder does to the members of the
    annotator is a sequence of section insertions of the plain kinds, string
    decodes behind the seen-set, and table frames: the vtable behind its
    cache, the fields, then the Table section with its leading region. *)
Inductive Decoder (schema_ : reflection.Schema) (binary_ : pointer)
  : ∀ A : Type, M A → Prop :=
  | Decoder_ret (A : Type) (a : A) : Decoder schema_ binary_ A (ret a)
  | Decoder_diverge (A : Type) : Decoder schema_ binary_ A diverge
  | Decoder_bind (A B : Type) (m : M A) (k : A → M B) :
      Decoder schema_ binary_ A m →
      (∀ a, Decoder schema_ binary_ B (k a)) →
      Decoder schema_ binary_ B (bind m k)
  | Decoder_section (offset : N) (s : BinarySection) :
      is_plain_type (section_type s) = true →
      Decoder schema_ binary_ unit (AddSection offset s)
  | Decoder_string (offset : N) (table : reflection.Object)
      (field : reflection.Field) :
      Decoder schema_ binary_ unit (BuildString binary_ offset table field)
  | Decoder_table (offset : N) (type : BinarySectionType.t)
      (table : reflection.Object)
      (fields : VTable.t → M (list BinaryRegion)) :
      is_table_type type = true →
      (∀ vtable, Decoder schema_ binary_ (list BinaryRegion) (fields vtable)) →
      Decoder schema_ binary_ unit
        (BuildVTable binary_ (vtable_offset_of binary_ offset) table;;;
         vtable <- cached_vtable (vtable_offset_of binary_ offset);;
         regions <- fields vtable;;
         AddSection offset
           {| name := reflection.object_name table;
              section_type := type;
              regions :=
                leading_region binary_ offset
                :: sort_by region_offset regions |}).

(** What holds of the members whenever decoders have run on a new
    annotator: a table section starts with its leading region and its vtable
    is cached; a cached vtable and a seen string have a section at their
    offset; and every section is of a decoded kind. *)
Record Inv (binary_ : pointer) (st : BinaryAnnotator) : Prop := {
  inv_tables :
    ∀ A s, sections_ st !! A = Some s →
           is_table_type (section_type s) = true →
           (∃ rest, regions s = leading_region binary_ A :: rest)
           ∧ is_Some (vtables_ st !! vtable_offset_of binary_ A);
  inv_vtables :
    ∀ V, is_Some (vtables_ st !! V) → is_Some (sections_ st !! V);
  inv_strings :
    ∀ S, S ∈ strings_ st → is_Some (sections_ st !! S);
  inv_types :
    ∀ k s, sections_ st !! k = Some s →
           is_decoded_type (section_type s) = true;
  inv_vtable_sections :
    ∀ V s, sections_ st !! V = Some s →
           section_type s = BinarySectionType.VTable →
           ∃ table, s = vtable_section binary_ V table;
  inv_string_sections :
    ∀ S s, sections_ st !! S = Some s →
           section_type s = BinarySectionType.String →
           ∃ field, s = string_section binary_ S field
}.

(** Lists of sections in strictly ascending offset order. *)
Definition ascending (l : list (N * BinarySection)) : Prop :=
  StronglySorted (λ a b, a.1 < b.1) l.

(** The result map after the gap-fill pass, in offset order: the sections
    [sections] with the due Padding sections between them.  A Padding section
    whose key is the key of the section before it ([prev]) finds the key
    taken and is not there. *)
Fixpoint filled (binary_length : N) (prev : option N) (cursor : N)
    (sections : list (N * BinarySection)) : list (N * BinarySection) :=
  match sections with
  | [] =>
      if (cursor <? binary_length) && negb (bool_decide (prev = Some cursor))
      then [(cursor, padding_section cursor (binary_length - cursor))]
      else []
  | (key, s) :: rest =>
      (if (cursor <? key) && negb (bool_decide (prev = Some cursor))
       then [(cursor, padding_section cursor (key - cursor))]
       else [])
      ++ (key, s) :: filled binary_length (Some key) (section_end key s) rest
  end.

(** [l] tiles [[a, b)]: each section starts where the one before it ends,
    and none is empty. *)
Fixpoint tiles (a : N) (l : list (N * BinarySection)) (b : N) : Prop :=
  match l with
  | [] => a = b
  | (key, s) :: rest =>
      key = a ∧ 0 < section_span s ∧ tiles (section_end key s) rest b
  end.

(** The sections of [l], met in this order by a cursor that starts at
    [cursor], are not empty, do not start before the cursor and end at or
    before [binary_length]. *)
Fixpoint chained (binary_length cursor : N) (l : list (N * BinarySection))
  : Prop :=
  match l with
  | [] => cursor ≤ binary_length
  | (key, s) :: rest =>
      cursor ≤ key ∧ 0 < section_span s
      ∧ chained binary_length (section_end key s) rest
  end.

(** The decoded sections are well-formed for a buffer of [binary_length]
    bytes: none is empty, none ends behind the buffer and no two overlap. *)
Definition well_formed (binary_length : N) (m : gmap N BinarySection) : Prop :=
  (∀ k s, m !! k = Some s →
          0 < section_span s ∧ section_end k s ≤ binary_length)
  ∧ (∀ k1 s1 k2 s2, m !! k1 = Some s1 → m !! k2 = Some s2 → k1 < k2 →
                    section_end k1 s1 ≤ k2).

(** The result map is a partition of [[0, binary_length)]: every byte
    index below the length is covered by exactly one section, no section ends
    behind the length, and a section ends before the next one starts. *)
Definition partition (binary_length : N) (m : gmap N BinarySection) : Prop :=
  (∀ i, i < binary_length →
        ∃ k s, m !! k = Some s ∧ covers k s i
               ∧ ∀ k' s', m !! k' = Some s' → covers k' s' i → k' = k)
  ∧ (∀ k s, m !! k = Some s → section_end k s ≤ binary_length)
  ∧ (∀ k1 s1 k2 s2, m !! k1 = Some s1 → m !! k2 = Some s2 → k1 < k2 →
                    section_end k1 s1 ≤ k2).

(** [well_formed], as a check on the sections in offset order. *)
Definition well_formed_list (binary_length : N)
    (l : list (N * BinarySection)) : Prop :=
  Forall (λ x, 0 < section_span x.2 ∧ section_end x.1 x.2 ≤ binary_length) l
  ∧ Forall (λ x, Forall (λ y, x.1 < y.1 → section_end x.1 x.2 ≤ y.1) l) l.

#[global] Instance well_formed_list_dec (binary_length : N)
    (l : list (N * BinarySection)) :
  Decision (well_formed_list binary_length l).
Proof. unfold well_formed_list. apply _. Defined.

(** No section of another decoded kind than [kind] is keyed at [k]. *)
Definition no_other_kind (kind : BinarySectionType.t)
    (m : gmap N BinarySection) (k : N) : Prop :=
  ∀ s, m !! k = Some s →
       is_decoded_type (section_type s) = true → section_type s = kind.

(** Every byte from offset [L] on is zero. *)
Definition zero_from (binary_ : pointer) (L : N) : Prop :=
  ∀ i, L ≤ i → binary_ i = Byte.x00.

(** An object type has at most [2^16] fields (field ids are [uint16_t]). *)
Definition object_ok (table : reflection.Object) : Prop :=
  N.of_nat (List.length (reflection.object_fields table)) ≤ 2 ^ 16.

(** The schema is well-formed as far as the traversal depends on it: the
    object types have at most [2^16] fields, and no struct type contains
    itself. *)
Definition schema_ok (schema_ : reflection.Schema) : Prop :=
  object_ok (reflection.root_table schema_)
  ∧ Forall object_ok (reflection.objects schema_)
  ∧ ∀ structure,
      structure ∈ reflection.objects schema_ →
      reflection.is_struct structure = true →
      ∀ offset regions,
        is_Some (BuildStruct schema_ offset regions structure).

(** A bound on the offsets of the tables that a decode reaches when the
    bytes are zero from an offset [L ≤ 2^63] on. *)
Definition reach : N := 2 ^ 63 + 2 ^ 36.

(** The vtable cache holds entries with 16-bit offsets, and no entry for
    a vtable that lies in the zero bytes. *)
Definition cache_ok (L : N) (st : BinaryAnnotator) : Prop :=
  ∀ V vtable,
    vtables_ st !! V = Some vtable →
    (∀ e, e ∈ entries_by_id vtable → VTable.offset_from_table e < 2 ^ 16)
    ∧ (L ≤ V → V < reach → entries_by_id vtable = []).

(** A member function returns, on every state of the members whose cache
    is as above, and leaves the cache so. *)
Definition Terminates {A} (L : N) (m : M A) : Prop :=
  ∀ st, cache_ok L st → ∃ a st', m st = Some (a, st') ∧ cache_ok L st'.

(** The cache of a decode of [chain_binary] holds, at the offsets of its
    vtables, the vtables as [Node] decodes them. *)
Definition chain_cache (st : BinaryAnnotator) : Prop :=
  ∀ V vtable,
    vtables_ st !! V = Some vtable →
    V mod 16 = 0 → V < two64 →
    entries_by_id vtable = entries_by_id (decode_vtable chain_binary V Node).

(** ** [ToHex]

    The two [ToHex] functions format through a [std::stringstream]; the
    stream's part is written out here as the C++ standard fixes it for the
    manipulators the header uses ([std::hex], [std::uppercase],
    [std::setfill('0')], [std::setw]). *)

(** [static_cast<int>] of a [size_t]: what [std::setw], whose parameter is
    an [int], receives for [width]. *)
Definition int_of_size_t (width : N) : Z :=
  let w := Z.of_N (width mod 2 ^ 32) in
  if (w <? 2 ^ 31)%Z then w else (w - 2 ^ 32)%Z.

(** The digit that [std::hex] with [std::uppercase] writes for [d < 16]. *)
Definition hex_digit (d : N) : Ascii.ascii :=
  Ascii.ascii_of_N (if d <? 10 then 48 + d else 55 + d).

(** The digits of [v], most significant first, in front of [acc]; [fuel]
    bounds their number. *)
Fixpoint hex_digits_before (fuel : nat) (v : N) (acc : string) : string :=
  match fuel with
  | O => acc
  | S fuel' =>
      let acc' := String (hex_digit (v mod 16)) acc in
      if v / 16 =? 0 then acc' else hex_digits_before fuel' (v / 16) acc'
  end.

(** An unsigned [v] in base 16: no leading zero, one digit for [0]. *)
Definition hex_digits (v : N) : string :=
  hex_digits_before (S (N.to_nat (N.log2 v))) v "".

(** [n] fill characters in front of [text]. *)
Fixpoint fill (c : Ascii.ascii) (n : nat) (text : string) : string :=
  match n with
  | O => text
  | S n' => String c (fill c n' text)
  end.

(** [std::setfill(c) << std::setw(w) << text]: [text] flushed right in a
    field of [w] characters; a text longer than the field, or a field width
    that is not positive, leaves the text as it is. *)
Definition pad_left (c : Ascii.ascii) (w : Z) (text : string) : string :=
  fill c (Z.to_nat (w - Z.of_nat (String.length text))) text.

(** A value [i] of type [T] converted to the unsigned type of the same
    width: what the stream writes in base 16 for a signed [i]. *)
Definition to_unsigned (T : ScalarType) (i : Z) : N :=
  Z.to_N (i mod 2 ^ (8 * Z.of_nat (sizeof T))).

(** [stream << i] under [std::hex] and [std::uppercase].  The one-byte
    types are character types ([unsigned char], [signed char]): the stream
    writes the character itself.  A wider [T] is written in base 16. *)
Definition insert_hex (T : ScalarType) (i : Z) : string :=
  match sizeof T with
  | 1%nat => String (Ascii.ascii_of_N (to_unsigned T i)) ""
  | _ => hex_digits (to_unsigned T i)
  end.

(** The fill character ['0']. *)
Definition fill_char : Ascii.ascii := Ascii.ascii_of_N 48.

(** [template<typename T> std::string ToHex(T i, size_t width)] *)
Definition ToHex (T : ScalarType) (i : Z) (width : N) : string :=
  pad_left fill_char (int_of_size_t width) (insert_hex T i).

(** [ToHex(i)], with the default argument [width = sizeof(T)]. *)
Definition ToHex_default (T : ScalarType) (i : Z) : string :=
  ToHex T i (N.of_nat (sizeof T)).

(** [std::string ToHex(uint8_t i)]: [ToHex(static_cast<int>(i), 2)], where
    [int] is [int32_t]. *)
Definition ToHex_uint8_t (i : Z) : string := ToHex int32_t i 2.

(** Reading a string of upper-case hexadecimal digits back, to state what
    [ToHex] has written. *)
Definition hex_value (c : Ascii.ascii) : option N :=
  let n := Ascii.N_of_ascii c in
  if (48 <=? n) && (n <=? 57) then Some (n - 48)
  else if (65 <=? n) && (n <=? 70) then Some (n - 55)
  else None.

Fixpoint parse_hex_from (acc : N) (s : string) : option N :=
  match s with
  | EmptyString => Some acc
  | String c s' =>
      match hex_value c with
      | Some d => parse_hex_from (16 * acc + d) s'
      | None => None
      end
  end.

Definition parse_hex (s : string) : option N := parse_hex_from 0 s.

(** ** Enumeration values and types of the same width *)

(** [static_cast<BinaryRegionType>(v)] where [v] is the value of an
    enumerator; [None] where it is not. *)
Definition BinaryRegionType_of_value (v : Z) : option BinaryRegionType.t :=
  match v with
  | 0%Z => Some BinaryRegionType.Unknown
  | 1%Z => Some BinaryRegionType.UOffset
  | 2%Z => Some BinaryRegionType.SOffset
  | 3%Z => Some BinaryRegionType.VOffset
  | 4%Z => Some BinaryRegionType.Bool
  | 5%Z => Some BinaryRegionType.Byte
  | 6%Z => Some BinaryRegionType.Char
  | 7%Z => Some BinaryRegionType.Uint8
  | 8%Z => Some BinaryRegionType.Int8
  | 9%Z => Some BinaryRegionType.Uint16
  | 10%Z => Some BinaryRegionType.Int16
  | 11%Z => Some BinaryRegionType.Uint32
  | 12%Z => Some BinaryRegionType.Int32
  | 13%Z => Some BinaryRegionType.Uint64
  | 14%Z => Some BinaryRegionType.Int64
  | 15%Z => Some BinaryRegionType.Float
  | 16%Z => Some BinaryRegionType.Double
  | _ => None
  end.

(** [ToString] on any value of the enumeration's underlying type: the
    [switch] with its [default] label. *)
Definition ToString_of_value (v : Z) : string :=
  match BinaryRegionType_of_value v with
  | Some type => ToString type
  | None => "todo"
  end.

(** [std::make_unsigned_t<T>] *)
Definition make_unsigned (T : ScalarType) : ScalarType :=
  match T with
  | int8_t => uint8_t
  | int16_t => uint16_t
  | int32_t => uint32_t
  | int64_t => uint64_t
  | _ => T
  end.

(** * Properties *)

(** ** [GetRegionType] *)

(** C9: for every reflection scalar base type it handles, [GetRegionType]
    returns a region type of the same byte width, but not always of the same
    signedness or kind: [UType], [Bool], [Byte] and [UByte] all map to
    [Uint8] (no base type maps to [Bool] or [Byte]), the signed 32-bit [Int]
    maps to [Uint32], and every base type without a [case] maps to
    [Unknown]. *)
Theorem GetRegionType_same_width_not_same_kind :
  (∀ bt : reflection.BaseType,
     if reflection.is_scalar bt
     then region_type_width (GetRegionType bt) = reflection.BaseType_size bt
          ∧ GetRegionType bt ≠ BinaryRegionType.Unknown
     else GetRegionType bt = BinaryRegionType.Unknown)
  ∧ GetRegionType reflection.UType = BinaryRegionType.Uint8
  ∧ GetRegionType reflection.Bool = BinaryRegionType.Uint8
  ∧ GetRegionType reflection.Byte = BinaryRegionType.Uint8
  ∧ GetRegionType reflection.UByte = BinaryRegionType.Uint8
  ∧ (∀ bt : reflection.BaseType,
       GetRegionType bt ≠ BinaryRegionType.Bool
       ∧ GetRegionType bt ≠ BinaryRegionType.Byte)
  ∧ GetRegionType reflection.Int = BinaryRegionType.Uint32
  ∧ base_type_kind reflection.Int = SignedInt
  ∧ region_type_kind (GetRegionType reflection.Int) = UnsignedInt
  ∧ base_type_kind reflection.Byte = SignedInt
  ∧ region_type_kind (GetRegionType reflection.Byte) = UnsignedInt
  ∧ base_type_kind reflection.Bool = Boolean
  ∧ region_type_kind (GetRegionType reflection.Bool) = UnsignedInt.
Proof.
  repeat split; try reflexivity; destruct bt; simpl; done.
Qed.

(** ** [BinaryRegion] *)

Lemma emit_region_fields (i : RegionInfo) :
  offset (emit_region i) = info_offset i
  ∧ length (emit_region i) = info_length i
  ∧ type (emit_region i) = info_type i
  ∧ array_length (emit_region i) = default 0 (info_array i)
  ∧ points_to_offset (emit_region i) = default 0 (info_points_to i)
  ∧ comment (emit_region i) = info_comment i.
Proof. destruct i as [o l t [a|] [p|] c]; repeat split. Qed.

(** C10: in every emitted [BinaryRegion] the members [array_length] and
    [points_to_offset] are [0] unless assigned, and [0] is their only
    "absent" value: a region that is no indirection is the same region as one
    whose target is absolute offset [0], and a region that is no array is the
    same region as an array of [0] elements, so the output tells neither pair
    apart. *)
Theorem BinaryRegion_zero_is_the_absent_sentinel :
  array_length BinaryRegion_default = 0
  ∧ points_to_offset BinaryRegion_default = 0
  ∧ (∀ i : RegionInfo,
       array_length (emit_region i) = default 0 (info_array i)
       ∧ points_to_offset (emit_region i) = default 0 (info_points_to i))
  ∧ (∀ o l t a c,
       emit_region {| info_offset := o; info_length := l; info_type := t;
                      info_array := a; info_points_to := None;
                      info_comment := c |}
       = emit_region {| info_offset := o; info_length := l; info_type := t;
                        info_array := a; info_points_to := Some 0;
                        info_comment := c |})
  ∧ (∀ o l t p c,
       emit_region {| info_offset := o; info_length := l; info_type := t;
                      info_array := None; info_points_to := p;
                      info_comment := c |}
       = emit_region {| info_offset := o; info_length := l; info_type := t;
                        info_array := Some 0; info_points_to := p;
                        info_comment := c |})
  ∧ ¬ (∀ i j : RegionInfo, emit_region i = emit_region j → i = j).
Proof.
  split; [reflexivity|]. split; [reflexivity|].
  split; [intros i; pose proof (emit_region_fields i); tauto|].
  split; [intros o l t [a|] c; reflexivity|].
  split; [intros o l t [p|] c; reflexivity|].
  intros Hinj.
  specialize (Hinj (region_info 0 4 BinaryRegionType.UOffset "")
                (Build_RegionInfo 0 4 BinaryRegionType.UOffset None (Some 0) "")
                eq_refl).
  discriminate Hinj.
Qed.

(** ** [GetScalar] *)

Lemma load_le_ext (p q : pointer) (at_ : N) (width : nat) :
  (∀ i, at_ ≤ i → i < at_ + N.of_nat width → p i = q i) →
  load_le p at_ width = load_le q at_ width.
Proof.
  revert at_. induction width as [|w IH]; intros at_ Hpq; [reflexivity|].
  simpl. rewrite (Hpq at_) by lia. f_equal. f_equal.
  apply IH. intros i ? ?. apply Hpq; lia.
Qed.

Lemma load_le_bound (p : pointer) (at_ : N) (width : nat) :
  load_le p at_ width < 256 ^ N.of_nat width.
Proof.
  revert at_. induction width as [|w IH]; intros at_; [simpl; lia|].
  cbn [load_le]. specialize (IH (N.succ at_)).
  pose proof (Byte.to_N_bounded (p at_)).
  replace (N.of_nat (S w)) with (N.succ (N.of_nat w)) by lia.
  rewrite N.pow_succ_r'. lia.
Qed.

Lemma ptr_add_0 (p : pointer) (i : N) : ptr_add p 0 i = p i.
Proof. reflexivity. Qed.

Lemma reinterpret_unsigned (T : ScalarType) (raw : N) :
  is_signed T = false → reinterpret T raw = Z.of_N raw.
Proof. intros H. unfold reinterpret. rewrite H. reflexivity. Qed.

Lemma read_u16_bound (p : pointer) (offset : N) : read_u16 p offset < 2 ^ 16.
Proof.
  unfold read_u16, BinaryAnnotator_GetScalar, GetScalar.
  rewrite reinterpret_unsigned by reflexivity. rewrite N2Z.id.
  apply (load_le_bound _ 0 2).
Qed.

Lemma read_u32_bound (p : pointer) (offset : N) : read_u32 p offset < 2 ^ 32.
Proof.
  unfold read_u32, BinaryAnnotator_GetScalar, GetScalar.
  rewrite reinterpret_unsigned by reflexivity. rewrite N2Z.id.
  apply (load_le_bound _ 0 4).
Qed.

Lemma add64_small (a b : N) : a + b < two64 → add64 a b = a + b.
Proof. intros H. unfold add64. apply N.mod_small, H. Qed.

Lemma add64_bound (a b : N) : add64 a b < two64.
Proof. unfold add64. apply N.mod_lt. unfold two64. lia. Qed.




(** ** The header decoder *)

Lemma BuildHeader_eq (schema_ : reflection.Schema) (binary_ : pointer)
    (kFileIdentifierLength : N) (st : BinaryAnnotator) :
  sections_ st !! 0 = None →
  BuildHeader schema_ binary_ kFileIdentifierLength 0 st
  = Some
      (0 + Z.to_N (BinaryAnnotator_GetScalar binary_ uint32_t 0),
       {| vtables_ := vtables_ st;
          strings_ := strings_ st;
          sections_ :=
            <[0 := {| name := "";
                      section_type := BinarySectionType.Header;
                      regions :=
                        {| offset := 0; length := 4;
                           type := BinaryRegionType.UOffset;
                           array_length := 0;
                           points_to_offset :=
                             0 + Z.to_N (BinaryAnnotator_GetScalar binary_
                                           uint32_t 0);
                           comment := "offset to root table" |}
                        :: (if decide (reflection.file_ident schema_ = "")
                            then []
                            else [{| offset := 0 + 4;
                                     length := kFileIdentifierLength;
                                     type := BinaryRegionType.Char;
                                     array_length := kFileIdentifierLength;
                                     points_to_offset := 0;
                                     comment := "file identifier" |}]) |}]>
              (sections_ st) |}).
Proof.
  intros Hfree. unfold BuildHeader, bind, AddSection, ret. rewrite Hfree.
  fold (read_u32 binary_ 0).
  rewrite (add64_small 0 (read_u32 binary_ 0))
    by (pose proof (read_u32_bound binary_ 0); unfold two64; lia).
  repeat f_equal.
  destruct (decide (reflection.file_ident schema_ = "")); [reflexivity|].
  unfold array_region, emit_region; simpl.
  rewrite N.mul_1_r. reflexivity.
Qed.

(** C8: the header decoder reads a 4-byte forward offset at absolute
    offset 0 and returns 0 + that value as the root object's absolute offset,
    and it emits a Header section containing that offset region plus, when the
    schema declares a file identifier, a fixed-length character-array region
    immediately following it. *)
Theorem BuildHeader_root_offset_and_section (schema_ : reflection.Schema)
    (binary_ : pointer) (kFileIdentifierLength : N) (st : BinaryAnnotator) :
  sections_ st !! 0 = None →
  BuildHeader schema_ binary_ kFileIdentifierLength 0 st
  = Some
      (0 + Z.to_N (BinaryAnnotator_GetScalar binary_ uint32_t 0),
       {| vtables_ := vtables_ st;
          strings_ := strings_ st;
          sections_ :=
            <[0 := {| name := "";
                      section_type := BinarySectionType.Header;
                      regions :=
                        {| offset := 0; length := 4;
                           type := BinaryRegionType.UOffset;
                           array_length := 0;
                           points_to_offset :=
                             0 + Z.to_N (BinaryAnnotator_GetScalar binary_
                                           uint32_t 0);
                           comment := "offset to root table" |}
                        :: (if decide (reflection.file_ident schema_ = "")
                            then []
                            else [{| offset := 0 + 4;
                                     length := kFileIdentifierLength;
                                     type := BinaryRegionType.Char;
                                     array_length := kFileIdentifierLength;
                                     points_to_offset := 0;
                                     comment := "file identifier" |}]) |}]>
              (sections_ st) |}).
Proof. apply BuildHeader_eq. Qed.

Lemma BuildHeader_root_offset_and_section_witness :
  sections_ BinaryAnnotator_new !! 0 = None
  ∧ fst <$> BuildHeader monster_schema monster_binary 4 0 BinaryAnnotator_new
    = Some 12.
Proof.
  split; [reflexivity|].
  rewrite (BuildHeader_root_offset_and_section monster_schema monster_binary
             4 BinaryAnnotator_new eq_refl).
  reflexivity.
Defined.

(** ** The members only grow *)

Lemma extends_refl (st : BinaryAnnotator) : extends st st.
Proof. repeat split; done. Qed.

Lemma extends_trans (st1 st2 st3 : BinaryAnnotator) :
  extends st1 st2 → extends st2 st3 → extends st1 st3.
Proof.
  intros (?&?&?) (?&?&?). repeat split; etrans; eauto.
Qed.

Lemma extends_sections (st st' : BinaryAnnotator) (k : N) (s : BinarySection) :
  extends st st' → sections_ st !! k = Some s → sections_ st' !! k = Some s.
Proof. intros (_&_&H) Hk. eapply lookup_weaken; eauto. Qed.

Lemma extends_vtables (st st' : BinaryAnnotator) (k : N) (v : VTable.t) :
  extends st st' → vtables_ st !! k = Some v → vtables_ st' !! k = Some v.
Proof. intros (H&_&_) Hk. eapply lookup_weaken; eauto. Qed.

Lemma extends_strings (st st' : BinaryAnnotator) (k : N) :
  extends st st' → k ∈ strings_ st → k ∈ strings_ st'.
Proof. intros (_&H&_) Hk. set_solver. Qed.

Lemma AddSection_eq (offset : N) (s : BinarySection) (st : BinaryAnnotator) :
  ∃ st', AddSection offset s st = Some ((), st')
         ∧ vtables_ st' = vtables_ st ∧ strings_ st' = strings_ st
         ∧ sections_ st' = match sections_ st !! offset with
                           | Some _ => sections_ st
                           | None => <[offset := s]> (sections_ st)
                           end.
Proof.
  unfold AddSection. eexists. split; [reflexivity|].
  destruct (sections_ st !! offset); repeat split.
Qed.

Lemma AddSection_present (offset : N) (s : BinarySection)
    (st : BinaryAnnotator) :
  is_Some (sections_ st !! offset) → AddSection offset s st = Some ((), st).
Proof. intros [x Hx]. unfold AddSection. rewrite Hx. reflexivity. Qed.

Lemma Stable_ret {A} (a : A) : Stable (ret a).
Proof.
  intros st a' st' [= <- <-]. split; [apply extends_refl|]. reflexivity.
Qed.

Lemma Stable_diverge {A} : Stable (@diverge A).
Proof. intros st a st' H. discriminate H. Qed.

Lemma Stable_bind {A B} (m : M A) (k : A → M B) :
  Stable m → (∀ a, Stable (k a)) → Stable (bind m k).
Proof.
  intros Hm Hk st b st'' Hrun. unfold bind in Hrun.
  destruct (m st) as [[a st']|] eqn:Em; [|discriminate].
  destruct (Hm _ _ _ Em) as [Hext1 Habs1].
  destruct (Hk a _ _ _ Hrun) as [Hext2 Habs2].
  split; [eapply extends_trans; eauto|].
  intros st3 Hext3. unfold bind.
  rewrite (Habs1 st3) by (eapply extends_trans; eauto).
  apply Habs2, Hext3.
Qed.

Lemma Stable_AddSection (offset : N) (s : BinarySection) :
  Stable (AddSection offset s).
Proof.
  intros st [] st' Hrun. unfold AddSection in Hrun.
  injection Hrun as <-.
  destruct (sections_ st !! offset) as [x|] eqn:Ek.
  - split; [apply extends_refl|]. intros st'' Hext.
    apply AddSection_present. exists x. eapply extends_sections; eauto.
  - split.
    + repeat split; simpl; try done. by apply insert_subseteq.
    + intros st'' Hext. apply AddSection_present. exists s.
      eapply extends_sections; eauto. simpl. apply lookup_insert_eq.
Qed.

Lemma BuildVTable_eq (binary_ : pointer) (offset : N)
    (table : reflection.Object) (st : BinaryAnnotator) :
  ∃ st' vtable,
    BuildVTable binary_ offset table st = Some ((), st')
    ∧ extends st st'
    ∧ vtables_ st' !! offset = Some vtable
    ∧ strings_ st' = strings_ st
    ∧ match vtables_ st !! offset with
      | Some _ => st' = st
      | None =>
          vtable = decode_vtable binary_ offset table
          ∧ vtables_ st' = <[offset := vtable]> (vtables_ st)
          ∧ sections_ st'
            = match sections_ st !! offset with
              | Some _ => sections_ st
              | None => <[offset := vtable_section binary_ offset table]>
                          (sections_ st)
              end
      end.
Proof.
  unfold BuildVTable.
  destruct (vtables_ st !! offset) as [vt|] eqn:Ev.
  - exists st, vt. repeat split; done.
  - set (st1 := {| vtables_ := _; strings_ := _; sections_ := _ |}).
    destruct (AddSection_eq offset (vtable_section binary_ offset table) st1)
      as (st' & Hrun & Hv & Hs & Hsec).
    exists st', (decode_vtable binary_ offset table).
    split; [exact Hrun|]. subst st1; simpl in *.
    split; [|split; [|split; [|split; [|split]]]]; try done.
    + repeat split.
      * rewrite Hv. by apply insert_subseteq.
      * rewrite Hs. done.
      * rewrite Hsec. destruct (sections_ st !! offset) eqn:E; [done|].
        by apply insert_subseteq.
    + rewrite Hv. apply lookup_insert_eq.
Qed.

Lemma BuildVTable_cached (binary_ : pointer) (offset : N)
    (table : reflection.Object) (st : BinaryAnnotator) :
  is_Some (vtables_ st !! offset) →
  BuildVTable binary_ offset table st = Some ((), st).
Proof. intros [vt Hvt]. unfold BuildVTable. rewrite Hvt. reflexivity. Qed.

Lemma Stable_table_frame {A} (binary_ : pointer) (offset : N)
    (table : reflection.Object) (k : VTable.t → M A) :
  (∀ vtable, Stable (k vtable)) →
  Stable (BuildVTable binary_ offset table;;;
          vtable <- cached_vtable offset;; k vtable).
Proof.
  intros Hk st a st' Hrun. unfold bind at 1 in Hrun.
  destruct (BuildVTable_eq binary_ offset table st)
    as (st1 & vt & Hv & Hext1 & Hvt & _).
  rewrite Hv in Hrun. unfold bind, cached_vtable in Hrun.
  rewrite Hvt in Hrun. simpl in Hrun.
  destruct (Hk vt _ _ _ Hrun) as [Hext2 Habs].
  split; [eapply extends_trans; eauto|].
  intros st'' Hext3. unfold bind at 1.
  assert (Hvt'' : vtables_ st'' !! offset = Some vt).
  { eapply extends_vtables; [|exact Hvt]. eapply extends_trans; eauto. }
  rewrite BuildVTable_cached by (rewrite Hvt''; eauto).
  unfold bind, cached_vtable. rewrite Hvt''. simpl. apply Habs, Hext3.
Qed.

Lemma BuildString_eq (binary_ : pointer) (offset : N)
    (table : reflection.Object) (field : reflection.Field)
    (st : BinaryAnnotator) :
  ∃ st',
    BuildString binary_ offset table field st = Some ((), st')
    ∧ extends st st'
    ∧ offset ∈ strings_ st'
    ∧ vtables_ st' = vtables_ st
    ∧ if decide (offset ∈ strings_ st) then st' = st
      else strings_ st' = {[offset]} ∪ strings_ st
           ∧ sections_ st'
             = match sections_ st !! offset with
               | Some _ => sections_ st
               | None => <[offset := string_section binary_ offset field]>
                           (sections_ st)
               end.
Proof.
  unfold BuildString.
  destruct (decide (offset ∈ strings_ st)) as [Hin|Hout].
  - exists st. repeat split; done.
  - set (st1 := {| vtables_ := _; strings_ := _; sections_ := _ |}).
    destruct (AddSection_eq offset (string_section binary_ offset field) st1)
      as (st' & Hrun & Hv & Hs & Hsec).
    exists st'. split; [exact Hrun|]. subst st1; simpl in *.
    split; [|split; [|split; [|split]]]; try done.
    + repeat split.
      * rewrite Hv. done.
      * rewrite Hs. set_solver.
      * rewrite Hsec. destruct (sections_ st !! offset) eqn:E; [done|].
        by apply insert_subseteq.
    + rewrite Hs. set_solver.
Qed.

Lemma BuildString_seen (binary_ : pointer) (offset : N)
    (table : reflection.Object) (field : reflection.Field)
    (st : BinaryAnnotator) :
  offset ∈ strings_ st →
  BuildString binary_ offset table field st = Some ((), st).
Proof.
  intros Hin. unfold BuildString.
  destruct (decide (offset ∈ strings_ st)); [reflexivity|contradiction].
Qed.

Lemma Stable_BuildString (binary_ : pointer) (offset : N)
    (table : reflection.Object) (field : reflection.Field) :
  Stable (BuildString binary_ offset table field).
Proof.
  intros st [] st' Hrun.
  destruct (BuildString_eq binary_ offset table field st)
    as (st1 & Hrun1 & Hext & Hin & _).
  rewrite Hrun in Hrun1. injection Hrun1 as <-.
  split; [exact Hext|]. intros st'' Hext'.
  apply BuildString_seen. eapply extends_strings; eauto.
Qed.

Lemma Decoder_Stable (schema_ : reflection.Schema) (binary_ : pointer)
    (A : Type) (m : M A) :
  Decoder schema_ binary_ A m → Stable m.
Proof.
  induction 1 as [A a|A|A B m k _ IHm _ IHk|offset s _|offset table field
                 |offset type table fields _ _ IH].
  - apply Stable_ret.
  - apply Stable_diverge.
  - apply Stable_bind; assumption.
  - apply Stable_AddSection.
  - apply Stable_BuildString.
  - apply Stable_table_frame. intros vtable.
    apply Stable_bind; [apply IH|]. intros regions. apply Stable_AddSection.
Qed.

(** ** The decoders have the shape [Decoder] *)

Section Shape.

Variable schema_ : reflection.Schema.
Variable binary_ : pointer.

Lemma Decoder_foldM {A B} (body : B → A → M B) (l : list A) (acc : B) :
  (∀ acc x, Decoder schema_ binary_ B (body acc x)) →
  Decoder schema_ binary_ B (foldM body acc l).
Proof.
  intros Hbody. revert acc.
  induction l as [|x l IH]; intros acc; simpl.
  - apply Decoder_ret.
  - apply Decoder_bind; [apply Hbody|]. intros acc'. apply IH.
Qed.

Lemma Decoder_call_BuildStruct (offset : N) (regions : list BinaryRegion)
    (structure : reflection.Object) :
  Decoder schema_ binary_ _ (call_BuildStruct schema_ offset regions structure).
Proof.
  unfold call_BuildStruct.
  destruct (BuildStruct schema_ offset regions structure) as [[? ?]|].
  - apply Decoder_ret.
  - apply Decoder_diverge.
Qed.

Variable BuildTable_ : N → BinarySectionType.t → reflection.Object → M unit.

Hypothesis Decoder_BuildTable_ :
  ∀ offset type table,
    is_table_type type = true →
    Decoder schema_ binary_ unit (BuildTable_ offset type table).

Ltac shape :=
  repeat first
    [ solve [auto]
    | apply Decoder_ret
    | apply Decoder_diverge
    | apply Decoder_string
    | apply Decoder_call_BuildStruct
    | apply Decoder_BuildTable_; reflexivity
    | apply Decoder_section; reflexivity
    | apply Decoder_bind; [|intros ?]
    | apply Decoder_foldM; intros ? ?
    | case_match ].

Lemma Decoder_BuildUnion (offset realized_type : N)
    (field : reflection.Field) :
  Decoder schema_ binary_ _
    (BuildUnion schema_ BuildTable_ offset realized_type field).
Proof. unfold BuildUnion. shape. Qed.

Lemma Decoder_vector_reference (field : reflection.Field)
    (table : reflection.Object) (tag_of : N → N)
    (regions : list BinaryRegion) (i_slot : N * N) :
  Decoder schema_ binary_ _
    (vector_reference schema_ binary_ BuildTable_ field table tag_of
       regions i_slot).
Proof.
  unfold vector_reference. destruct i_slot as [i slot].
  pose proof Decoder_BuildUnion. shape.
Qed.

Lemma Decoder_BuildVector (offset : N) (table : reflection.Object)
    (field : reflection.Field) (parent_table_offset : N)
    (vtable : VTable.t) :
  Decoder schema_ binary_ _
    (BuildVector schema_ binary_ BuildTable_ offset table field
       parent_table_offset vtable).
Proof.
  unfold BuildVector. pose proof Decoder_vector_reference. shape.
Qed.

Lemma Decoder_BuildTableField (offset : N) (table : reflection.Object)
    (vtable : VTable.t) (regions : list BinaryRegion)
    (entry : VTable.Entry) :
  Decoder schema_ binary_ _
    (BuildTableField schema_ binary_ BuildTable_ offset table vtable
       regions entry).
Proof.
  unfold BuildTableField.
  pose proof Decoder_BuildUnion. pose proof Decoder_BuildVector.
  shape.
Qed.

Lemma Decoder_BuildTable_body (offset : N) (type : BinarySectionType.t)
    (table : reflection.Object) :
  is_table_type type = true →
  Decoder schema_ binary_ _
    (BuildTable_body schema_ binary_ BuildTable_ offset type table).
Proof.
  intros Htype. unfold BuildTable_body.
  apply (Decoder_table schema_ binary_ offset type table
           (λ vtable,
              foldM (λ regions entry,
                       if VTable.offset_from_table entry =? 0 then ret regions
                       else BuildTableField schema_ binary_ BuildTable_ offset
                              table vtable regions entry)
                    [] (entries_by_id vtable)) Htype).
  intros vtable. apply Decoder_foldM. intros regions entry.
  destruct (VTable.offset_from_table entry =? 0).
  - apply Decoder_ret.
  - apply Decoder_BuildTableField.
Qed.

End Shape.

Lemma Decoder_BuildTable (schema_ : reflection.Schema) (binary_ : pointer)
    (fuel : nat) (offset : N) (type : BinarySectionType.t)
    (table : reflection.Object) :
  is_table_type type = true →
  Decoder schema_ binary_ unit (BuildTable schema_ binary_ fuel offset type table).
Proof.
  revert offset type table.
  induction fuel as [|fuel IH]; intros offset type table Htype; simpl.
  - apply Decoder_diverge.
  - apply Decoder_BuildTable_body; [exact IH|exact Htype].
Qed.

Lemma Decoder_BuildHeader (schema_ : reflection.Schema) (binary_ : pointer)
    (kFileIdentifierLength offset : N) :
  Decoder schema_ binary_ N
    (BuildHeader schema_ binary_ kFileIdentifierLength offset).
Proof.
  unfold BuildHeader. apply Decoder_bind.
  - apply Decoder_section. reflexivity.
  - intros. apply Decoder_ret.
Qed.

(** ** What the sections and the caches say of each other *)

Lemma Inv_new (binary_ : pointer) : Inv binary_ BinaryAnnotator_new.
Proof.
  split; simpl.
  - intros A s H. rewrite lookup_empty in H. discriminate.
  - intros V [x H]. rewrite lookup_empty in H. discriminate.
  - intros S H. set_solver.
  - intros k s H. rewrite lookup_empty in H. discriminate.
  - intros V s H. rewrite lookup_empty in H. discriminate.
  - intros V s H. rewrite lookup_empty in H. discriminate.
Qed.

(** One step that stores [s] at [k] unless the key is taken, and adds at
    most [k] to the caches. *)
Lemma Inv_step (binary_ : pointer) (st st' : BinaryAnnotator) (k : N)
    (s : BinarySection) :
  Inv binary_ st →
  extends st st' →
  sections_ st' = match sections_ st !! k with
                  | Some _ => sections_ st
                  | None => <[k := s]> (sections_ st)
                  end →
  (∀ V, is_Some (vtables_ st' !! V) → is_Some (vtables_ st !! V) ∨ V = k) →
  (∀ S, S ∈ strings_ st' → S ∈ strings_ st ∨ S = k) →
  is_decoded_type (section_type s) = true →
  (is_table_type (section_type s) = true →
   (∃ rest, regions s = leading_region binary_ k :: rest)
   ∧ is_Some (vtables_ st' !! vtable_offset_of binary_ k)) →
  (section_type s = BinarySectionType.VTable →
   ∃ table, s = vtable_section binary_ k table) →
  (section_type s = BinarySectionType.String →
   ∃ field, s = string_section binary_ k field) →
  Inv binary_ st'.
Proof.
  intros HI Hext Hsec Hvt Hstr Hdec Htab Hvts Hstrs.
  assert (Hk : is_Some (sections_ st' !! k)).
  { rewrite Hsec. destruct (sections_ st !! k) eqn:E; [rewrite E; eauto|].
    rewrite lookup_insert_eq. eauto. }
  assert (Hcases : ∀ j x, sections_ st' !! j = Some x →
                          sections_ st !! j = Some x ∨ (j = k ∧ x = s)).
  { intros j x. rewrite Hsec.
    destruct (sections_ st !! k) eqn:E; [by left|].
    destruct (decide (k = j)) as [->|Hne].
    - rewrite lookup_insert_eq. intros [= <-]. by right.
    - rewrite lookup_insert_ne by done. by left. }
  split.
  - intros A x HA Htype. destruct (Hcases _ _ HA) as [Hold|[-> ->]].
    + destruct (inv_tables _ _ HI _ _ Hold Htype) as [Hr [vt Hv]].
      split; [exact Hr|]. exists vt. eapply extends_vtables; eauto.
    + apply Htab, Htype.
  - intros V HV. destruct (Hvt V HV) as [Hold| ->]; [|exact Hk].
    destruct (inv_vtables _ _ HI V Hold) as [x Hx].
    exists x. eapply extends_sections; eauto.
  - intros S HS. destruct (Hstr S HS) as [Hold| ->]; [|exact Hk].
    destruct (inv_strings _ _ HI S Hold) as [x Hx].
    exists x. eapply extends_sections; eauto.
  - intros j x Hj. destruct (Hcases _ _ Hj) as [Hold|[-> ->]]; [|exact Hdec].
    eapply inv_types; eauto.
  - intros V x HV Htype. destruct (Hcases _ _ HV) as [Hold|[-> ->]].
    + eapply inv_vtable_sections; eauto.
    + apply Hvts, Htype.
  - intros S x HS Htype. destruct (Hcases _ _ HS) as [Hold|[-> ->]].
    + eapply inv_string_sections; eauto.
    + apply Hstrs, Htype.
Qed.

Lemma Inv_AddSection (binary_ : pointer) (st st' : BinaryAnnotator) (k : N)
    (s : BinarySection) :
  Inv binary_ st →
  AddSection k s st = Some ((), st') →
  is_decoded_type (section_type s) = true →
  (is_table_type (section_type s) = true →
   (∃ rest, regions s = leading_region binary_ k :: rest)
   ∧ is_Some (vtables_ st !! vtable_offset_of binary_ k)) →
  (section_type s = BinarySectionType.VTable →
   ∃ table, s = vtable_section binary_ k table) →
  (section_type s = BinarySectionType.String →
   ∃ field, s = string_section binary_ k field) →
  Inv binary_ st'.
Proof.
  intros HI Hrun Hdec Htab Hvts Hstrs.
  destruct (AddSection_eq k s st) as (st1 & Hrun1 & Hv & Hs & Hsec).
  rewrite Hrun in Hrun1. injection Hrun1 as <-.
  destruct (Stable_AddSection k s _ _ _ Hrun) as [Hext _].
  apply (Inv_step binary_ st st' k s HI Hext Hsec).
  - intros V. rewrite Hv. by left.
  - intros S. rewrite Hs. by left.
  - exact Hdec.
  - intros Ht. rewrite Hv. by apply Htab.
  - exact Hvts.
  - exact Hstrs.
Qed.

Lemma Inv_BuildVTable (binary_ : pointer) (st st' : BinaryAnnotator)
    (offset : N) (table : reflection.Object) :
  Inv binary_ st →
  BuildVTable binary_ offset table st = Some ((), st') →
  Inv binary_ st'.
Proof.
  intros HI Hrun.
  destruct (BuildVTable_eq binary_ offset table st)
    as (st1 & vt & Hrun1 & Hext & Hvt & Hs & Hcase).
  rewrite Hrun in Hrun1. injection Hrun1 as <-.
  destruct (vtables_ st !! offset) as [vt0|] eqn:E; [subst; exact HI|].
  destruct Hcase as (-> & Hv & Hsec).
  apply (Inv_step binary_ st st' offset
           (vtable_section binary_ offset table) HI Hext Hsec).
  - intros V. rewrite Hv. destruct (decide (offset = V)) as [->|Hne].
    + by right.
    + rewrite lookup_insert_ne by done. by left.
  - intros S. rewrite Hs. by left.
  - reflexivity.
  - discriminate.
  - intros _. by exists table.
  - discriminate.
Qed.

Lemma Inv_BuildString (binary_ : pointer) (st st' : BinaryAnnotator)
    (offset : N) (table : reflection.Object) (field : reflection.Field) :
  Inv binary_ st →
  BuildString binary_ offset table field st = Some ((), st') →
  Inv binary_ st'.
Proof.
  intros HI Hrun.
  destruct (BuildString_eq binary_ offset table field st)
    as (st1 & Hrun1 & Hext & Hin & Hv & Hcase).
  rewrite Hrun in Hrun1. injection Hrun1 as <-.
  destruct (decide (offset ∈ strings_ st)) as [Hseen|Hnew];
    [subst; exact HI|].
  destruct Hcase as (Hs & Hsec).
  apply (Inv_step binary_ st st' offset
           (string_section binary_ offset field) HI Hext Hsec).
  - intros V. rewrite Hv. by left.
  - intros S. rewrite Hs. clear. set_solver.
  - reflexivity.
  - discriminate.
  - discriminate.
  - intros _. by exists field.
Qed.

Lemma Decoder_Inv (schema_ : reflection.Schema) (binary_ : pointer)
    (A : Type) (m : M A) :
  Decoder schema_ binary_ A m →
  ∀ st a st', Inv binary_ st → m st = Some (a, st') → Inv binary_ st'.
Proof.
  induction 1 as [A a|A|A B m k _ IHm _ IHk|offset s Hplain|offset table field
                 |offset type table fields Htype Hfields IH];
    intros st r st' HI Hrun.
  - injection Hrun as _ <-. exact HI.
  - discriminate Hrun.
  - unfold bind in Hrun. destruct (m st) as [[x st1]|] eqn:Em; [|discriminate].
    eapply IHk; [|exact Hrun]. eapply IHm; eauto.
  - destruct r. eapply Inv_AddSection; eauto.
    + destruct (section_type s); done.
    + destruct (section_type s); done.
    + destruct (section_type s); done.
    + destruct (section_type s); done.
  - destruct r. eapply Inv_BuildString; eauto.
  - unfold bind at 1 in Hrun.
    destruct (BuildVTable_eq binary_ (vtable_offset_of binary_ offset) table st)
      as (st1 & vt & Hv & Hext1 & Hvt & _).
    rewrite Hv in Hrun. unfold bind at 1, cached_vtable in Hrun.
    rewrite Hvt in Hrun. simpl in Hrun. unfold bind in Hrun.
    destruct (fields vt st1) as [[regions st2]|] eqn:Ef; [|discriminate].
    destruct r.
    assert (HI1 : Inv binary_ st1) by (eapply Inv_BuildVTable; eauto).
    assert (HI2 : Inv binary_ st2) by (eapply IH; eauto).
    destruct (Decoder_Stable _ _ _ _ (Hfields vt) _ _ _ Ef) as [Hext2 _].
    eapply Inv_AddSection; eauto; simpl.
    + destruct type; done.
    + intros _. split; [eauto|]. exists vt. eapply extends_vtables; eauto.
    + intros ->. discriminate.
    + intros ->. discriminate.
Qed.

(** ** The result map in offset order *)

#[local] Instance key_le_total {A} (key : A → N) : Total (key_le key).
Proof. intros a b. unfold key_le. lia. Qed.

#[local] Instance key_le_trans {A} (key : A → N) : Transitive (key_le key).
Proof. intros a b c. unfold key_le. lia. Qed.

Lemma ascending_cons (x : N * BinarySection) (l : list (N * BinarySection)) :
  ascending (x :: l) ↔ Forall (λ y, x.1 < y.1) l ∧ ascending l.
Proof. apply StronglySorted_cons. Qed.

Lemma ascending_NoDup (l : list (N * BinarySection)) :
  ascending l → NoDup l.*1.
Proof.
  induction l as [|x l IH]; intros Hl; [constructor|].
  apply ascending_cons in Hl as [Hx Hl]. simpl. constructor; [|auto].
  intros Hin. apply list_elem_of_fmap in Hin as (y & Hy & Hin).
  rewrite Forall_forall in Hx. specialize (Hx y Hin). lia.
Qed.

Lemma ascending_unique (l1 l2 : list (N * BinarySection)) :
  ascending l1 → ascending l2 → (∀ x, x ∈ l1 ↔ x ∈ l2) → l1 = l2.
Proof.
  intros H1 H2 Heq.
  apply (StronglySorted_unique_strong (λ a b, a.1 < b.1)); try assumption.
  - intros x1 x2 _ _ ? ?. lia.
  - apply NoDup_Permutation; [| |exact Heq].
    + eapply NoDup_fmap_1, ascending_NoDup, H1.
    + eapply NoDup_fmap_1, ascending_NoDup, H2.
Qed.

Lemma in_order_elem (m : gmap N BinarySection) (k : N) (s : BinarySection) :
  (k, s) ∈ in_order m ↔ m !! k = Some s.
Proof.
  unfold in_order, sort_by. rewrite merge_sort_Permutation.
  apply elem_of_map_to_list.
Qed.

Lemma in_order_ascending (m : gmap N BinarySection) : ascending (in_order m).
Proof.
  assert (Hs : StronglySorted (key_le fst) (in_order m)).
  { unfold in_order, sort_by. apply StronglySorted_merge_sort; apply _. }
  assert (Hn : NoDup (in_order m).*1).
  { unfold in_order, sort_by. rewrite merge_sort_Permutation.
    apply NoDup_fst_map_to_list. }
  revert Hs Hn. generalize (in_order m). intros l.
  induction l as [|x l IH]; intros Hs Hn; [constructor|].
  apply StronglySorted_cons in Hs as [Hx Hs].
  simpl in Hn. apply NoDup_cons in Hn as [Hnx Hn].
  apply ascending_cons. split; [|auto].
  rewrite Forall_forall in Hx |- *. intros y Hy.
  specialize (Hx y Hy). unfold key_le in Hx.
  assert (x.1 ≠ y.1); [|lia].
  intros Heq. apply Hnx. rewrite Heq. apply list_elem_of_fmap. eauto.
Qed.

Lemma in_order_unique (m : gmap N BinarySection)
    (l : list (N * BinarySection)) :
  ascending l →
  (∀ k s, (k, s) ∈ l ↔ m !! k = Some s) →
  in_order m = l.
Proof.
  intros Hl Helem. apply ascending_unique; [apply in_order_ascending|exact Hl|].
  intros [k s]. rewrite in_order_elem, Helem. done.
Qed.

Lemma AddSection_union (key : N) (s : BinarySection) (st : BinaryAnnotator) :
  AddSection key s st
  = Some ((), {| vtables_ := vtables_ st; strings_ := strings_ st;
                 sections_ := sections_ st ∪ {[key := s]} |}).
Proof.
  unfold AddSection. do 2 f_equal.
  destruct (sections_ st !! key) as [x|] eqn:E.
  - destruct st as [v t m]; simpl in *. f_equal.
    apply map_eq. intros j. rewrite lookup_union.
    destruct (decide (key = j)) as [->|Hne].
    + rewrite E, lookup_singleton_eq. reflexivity.
    + rewrite lookup_singleton_ne by done. by destruct (m !! j).
  - f_equal. by apply insert_union_singleton_r.
Qed.

Lemma fold_AddSection (l : list (N * BinarySection)) (st : BinaryAnnotator) :
  foldM (λ _ '(key, s), AddSection key s) () l st
  = Some ((), {| vtables_ := vtables_ st; strings_ := strings_ st;
                 sections_ := sections_ st ∪ list_to_map l |}).
Proof.
  revert st. induction l as [|[k s] l IH]; intros st; simpl.
  - destruct st as [v t m]; simpl. unfold ret. do 3 f_equal.
    by rewrite (right_id_L ∅ (∪)).
  - unfold bind. rewrite AddSection_union, IH. simpl. do 3 f_equal.
    rewrite <- (assoc_L (∪)). f_equal.
    by rewrite insert_union_singleton_l.
Qed.

Lemma FixMissingSections_eq (binary_length : N) (st : BinaryAnnotator) :
  FixMissingSections binary_length st
  = Some ((), {| vtables_ := vtables_ st; strings_ := strings_ st;
                 sections_ :=
                   sections_ st
                   ∪ list_to_map
                       (missing_sections binary_length 0
                          (in_order (sections_ st))) |}).
Proof. unfold FixMissingSections. apply fold_AddSection. Qed.

(** ** The gap-fill pass *)

Lemma padding_section_span (offset length : N) :
  section_span (padding_section offset length) = length.
Proof. unfold section_span, padding_section, array_region; simpl. lia. Qed.

Lemma padding_section_end (offset length : N) :
  section_end offset (padding_section offset length) = offset + length.
Proof. unfold section_end. by rewrite padding_section_span. Qed.

Lemma filled_ascending (binary_length : N) (l : list (N * BinarySection)) :
  ∀ prev cursor,
    ascending l →
    (∀ p, prev = Some p → p ≤ cursor ∧ Forall (λ x, p < x.1) l) →
    ascending (filled binary_length prev cursor l)
    ∧ ∀ p, prev = Some p →
           Forall (λ x, p < x.1) (filled binary_length prev cursor l).
Proof.
  induction l as [|[k s] l IH]; intros prev c Hl Hprev; simpl.
  - destruct (c <? binary_length) eqn:Ec; simpl;
      [case_bool_decide as Hp; simpl|].
    + split; [constructor|]. intros p Hpp. constructor.
    + split; [repeat constructor|]. intros p ->.
      destruct (Hprev p eq_refl) as [Hle _].
      repeat constructor; simpl. assert (p ≠ c) by congruence. lia.
    + split; [constructor|]. intros p Hpp. constructor.
  - apply ascending_cons in Hl as [Hk Hl]. simpl in Hk.
    destruct (IH (Some k) (section_end k s) Hl) as [Hasc Hgt].
    { intros p [= <-]. split; [unfold section_end; lia|exact Hk]. }
    specialize (Hgt k eq_refl).
    assert (Hks : ascending ((k, s) :: filled binary_length (Some k)
                                         (section_end k s) l)).
    { apply ascending_cons. split; assumption. }
    destruct (c <? k) eqn:Ec; simpl; [case_bool_decide as Hp; simpl|].
    + split; [exact Hks|]. intros p ->.
      destruct (Hprev p eq_refl) as [_ Hall].
      apply Forall_cons in Hall as [Hpk _]. simpl in Hpk.
      constructor; [exact Hpk|].
      eapply Forall_impl; [exact Hgt|]. simpl. intros; lia.
    + apply N.ltb_lt in Ec. split.
      * apply ascending_cons. split; [|exact Hks].
        constructor; [simpl; lia|].
        eapply Forall_impl; [exact Hgt|]. simpl. intros; lia.
      * intros p ->. destruct (Hprev p eq_refl) as [Hle Hall].
        apply Forall_cons in Hall as [Hpk _]. simpl in Hpk.
        assert (p ≠ c) by congruence.
        constructor; [simpl; lia|]. constructor; [exact Hpk|].
        eapply Forall_impl; [exact Hgt|]. simpl. intros; lia.
    + split; [exact Hks|]. intros p ->.
      destruct (Hprev p eq_refl) as [_ Hall].
      apply Forall_cons in Hall as [Hpk _]. simpl in Hpk.
      constructor; [exact Hpk|].
      eapply Forall_impl; [exact Hgt|]. simpl. intros; lia.
Qed.

Lemma filled_elem (binary_length : N) (m : gmap N BinarySection)
    (l : list (N * BinarySection)) :
  ∀ prev cursor,
    ascending l →
    (∀ x, x ∈ l → is_Some (m !! x.1)) →
    (∀ j, is_Some (m !! j) → j ∈ l.*1 ∨ ∃ p, prev = Some p ∧ j ≤ p) →
    (∀ p, prev = Some p →
          is_Some (m !! p) ∧ p ≤ cursor ∧ Forall (λ x, p < x.1) l) →
    ∀ k s,
      (k, s) ∈ filled binary_length prev cursor l
      ↔ (k, s) ∈ l
        ∨ ((k, s) ∈ missing_sections binary_length cursor l ∧ m !! k = None).
Proof.
  induction l as [|[k0 s0] l IH]; intros prev c Hl Hin Hdom Hprev k s; simpl.
  - assert (Hfree : (c <? binary_length) = true →
                    (m !! c = None ↔ prev ≠ Some c)).
    { intros _. split.
      - intros Hnone ->. destruct (Hprev c eq_refl) as [[x Hx] _]. congruence.
      - intros Hne. destruct (m !! c) eqn:E; [|done]. exfalso.
        destruct (Hdom c) as [Hc|(p & -> & Hle)]; [eauto|set_solver|].
        destruct (Hprev p eq_refl) as (_ & Hge & _).
        apply Hne. f_equal. lia. }
    destruct (c <? binary_length) eqn:Ec; simpl.
    + specialize (Hfree eq_refl). case_bool_decide as Hp; simpl.
      * split; [set_solver|]. intros [?|[Hk Hnone]]; [set_solver|].
        apply list_elem_of_singleton in Hk. injection Hk as -> ->.
        apply Hfree in Hnone. contradiction.
      * split.
        -- intros Hk. apply list_elem_of_singleton in Hk.
           injection Hk as -> ->. right. split; [set_solver|].
           by apply Hfree.
        -- intros [?|[Hk _]]; [set_solver|exact Hk].
    + set_solver.
  - apply ascending_cons in Hl as [Hk0 Hl]. simpl in Hk0.
    specialize (IH (Some k0) (section_end k0 s0) Hl).
    assert (IH' : ∀ k s,
               (k, s) ∈ filled binary_length (Some k0) (section_end k0 s0) l
               ↔ (k, s) ∈ l
                 ∨ ((k, s) ∈ missing_sections binary_length
                                (section_end k0 s0) l ∧ m !! k = None)).
    { apply IH.
      - intros x Hx. apply Hin. by right.
      - intros j Hj. destruct (Hdom j Hj) as [Hjl|(p & -> & Hle)].
        + simpl in Hjl. apply elem_of_cons in Hjl as [->|Hjl]; [|by left].
          right. exists k0. split; [done|lia].
        + right. exists k0. split; [done|].
          destruct (Hprev p eq_refl) as (_ & _ & Hall).
          apply Forall_cons in Hall as [Hpk _]. simpl in Hpk. lia.
      - intros p [= <-]. split; [apply (Hin (k0, s0)); by left|].
        split; [unfold section_end; lia|exact Hk0]. }
    clear IH.
    assert (Hfree : (c <? k0) = true → (m !! c = None ↔ prev ≠ Some c)).
    { intros Hlt%N.ltb_lt. split.
      - intros Hnone ->. destruct (Hprev c eq_refl) as [[x Hx] _]. congruence.
      - intros Hne. destruct (m !! c) eqn:E; [|done]. exfalso.
        destruct (Hdom c) as [Hc|(p & -> & Hle)]; [eauto| |].
        + simpl in Hc. apply elem_of_cons in Hc as [->|Hc]; [lia|].
          apply list_elem_of_fmap in Hc as (y & -> & Hy).
          rewrite Forall_forall in Hk0. specialize (Hk0 y Hy). lia.
        + destruct (Hprev p eq_refl) as (_ & Hge & _).
          apply Hne. f_equal. lia. }
    rewrite !elem_of_app, !elem_of_cons, IH'.
    destruct (c <? k0) eqn:Ec; simpl.
    + specialize (Hfree eq_refl). case_bool_decide as Hp; simpl.
      * split; [set_solver|].
        intros [[?|?]|[[Hk|?] Hnone]]; [set_solver..| |set_solver].
        apply list_elem_of_singleton in Hk. injection Hk as -> ->.
        apply Hfree in Hnone. contradiction.
      * split.
        -- intros [Hk|[?|[?|?]]]; [|set_solver..].
           apply list_elem_of_singleton in Hk. injection Hk as -> ->.
           right. split; [left; set_solver|]. by apply Hfree.
        -- intros [[?|?]|[[Hk|?] Hnone]]; [set_solver..| |set_solver].
           left. exact Hk.
    + set_solver.
Qed.

Lemma missing_sections_keys (binary_length : N)
    (l : list (N * BinarySection)) :
  ∀ cursor lb,
    ascending l →
    lb ≤ cursor →
    Forall (λ x, lb ≤ x.1) l →
    Forall (λ x, lb ≤ x.1) (missing_sections binary_length cursor l)
    ∧ NoDup (missing_sections binary_length cursor l).*1.
Proof.
  induction l as [|[k s] l IH]; intros c lb Hl Hlb Hall; simpl.
  - destruct (c <? binary_length); simpl.
    + split; [repeat constructor; simpl; lia|].
      repeat constructor. set_solver.
    + split; constructor.
  - apply ascending_cons in Hl as [Hk Hl]. simpl in Hk.
    apply Forall_cons in Hall as [Hlbk _]. simpl in Hlbk.
    destruct (IH (section_end k s) k Hl) as [Hge Hnd].
    { unfold section_end; lia. }
    { eapply Forall_impl; [exact Hk|]. simpl. intros; lia. }
    destruct (c <? k) eqn:Ec; simpl.
    + apply N.ltb_lt in Ec. split.
      * constructor; [simpl; lia|].
        eapply Forall_impl; [exact Hge|]. simpl. intros; lia.
      * constructor; [|exact Hnd]. intros Hc.
        apply list_elem_of_fmap in Hc as (y & Hy1 & Hy).
        rewrite Forall_forall in Hge. specialize (Hge y Hy). lia.
    + split; [|exact Hnd].
      eapply Forall_impl; [exact Hge|]. simpl. intros; lia.
Qed.

Lemma FixMissingSections_in_order (binary_length : N)
    (m : gmap N BinarySection) :
  in_order (m ∪ list_to_map (missing_sections binary_length 0 (in_order m)))
  = filled binary_length None 0 (in_order m).
Proof.
  pose proof (in_order_ascending m) as Hasc.
  apply in_order_unique.
  - apply filled_ascending; [exact Hasc|]. intros p Hp. discriminate.
  - intros k s. rewrite (filled_elem binary_length m).
    + rewrite lookup_union_Some_raw, in_order_elem.
      destruct (missing_sections_keys binary_length (in_order m) 0 0 Hasc)
        as [_ Hnd]; [lia|apply Forall_forall; intros; lia|].
      rewrite <- (elem_of_list_to_map _ _ _ Hnd). tauto.
    + exact Hasc.
    + intros [j x] Hx. apply in_order_elem in Hx. simpl. eauto.
    + intros j [x Hx]. left. apply list_elem_of_fmap.
      exists (j, x). split; [done|]. by apply in_order_elem.
    + intros p Hp. discriminate.
Qed.

(** A second walk over the filled map finds a gap only where the padding
    of the first walk found its key taken. *)
Lemma missing_sections_filled (binary_length : N)
    (l : list (N * BinarySection)) :
  ∀ prev cursor x,
    x ∈ missing_sections binary_length cursor
          (filled binary_length prev cursor l) →
    prev = Some x.1 ∨ x.1 ∈ l.*1.
Proof.
  induction l as [|[k s] l IH]; intros prev c x; simpl.
  - destruct (c <? binary_length) eqn:Ec; simpl;
      [case_bool_decide as Hp; simpl|].
    + rewrite Ec. intros Hx. apply list_elem_of_singleton in Hx as ->.
      by left.
    + rewrite N.ltb_irrefl, padding_section_end. simpl.
      apply N.ltb_lt in Ec.
      replace (c + (binary_length - c)) with binary_length by lia.
      rewrite N.ltb_irrefl. set_solver.
    + rewrite Ec. set_solver.
  - destruct (c <? k) eqn:Ec; simpl; [case_bool_decide as Hp; simpl|].
    + rewrite Ec. intros Hx. apply elem_of_cons in Hx as [->|Hx].
      * by left.
      * right. destruct (IH _ _ _ Hx) as [[= ->]|?]; set_solver.
    + rewrite N.ltb_irrefl, padding_section_end. simpl.
      apply N.ltb_lt in Ec. replace (c + (k - c)) with k by lia.
      rewrite N.ltb_irrefl. simpl. intros Hx.
      right. destruct (IH _ _ _ Hx) as [[= ->]|?]; set_solver.
    + rewrite Ec. simpl. intros Hx.
      right. destruct (IH _ _ _ Hx) as [[= ->]|?]; set_solver.
Qed.

Lemma union_list_to_map_present (m : gmap N BinarySection)
    (l : list (N * BinarySection)) :
  (∀ x, x ∈ l → is_Some (m !! x.1)) → m ∪ list_to_map l = m.
Proof.
  intros Hl. apply map_eq. intros j. rewrite lookup_union.
  destruct (m !! j) as [x|] eqn:E; [by destruct (list_to_map l !! j)|].
  rewrite (not_elem_of_list_to_map_1 l j); [done|].
  intros Hj. apply list_elem_of_fmap in Hj as (y & -> & Hy).
  destruct (Hl y Hy) as [z Hz]. congruence.
Qed.

Lemma FixMissingSections_idempotent (binary_length : N)
    (st st' : BinaryAnnotator) :
  FixMissingSections binary_length st = Some ((), st') →
  FixMissingSections binary_length st' = Some ((), st').
Proof.
  rewrite !FixMissingSections_eq. intros [= <-]. simpl.
  rewrite FixMissingSections_in_order. do 3 f_equal.
  apply union_list_to_map_present. intros x Hx.
  apply missing_sections_filled in Hx as [Hx|Hx]; [discriminate|].
  apply list_elem_of_fmap in Hx as ([j y] & -> & Hy).
  apply in_order_elem in Hy. simpl.
  exists y. apply lookup_union_Some_raw. by left.
Qed.

Lemma filled_tiles (binary_length : N) (l : list (N * BinarySection)) :
  ∀ prev cursor,
    (∀ p, prev = Some p → p < cursor) →
    chained binary_length cursor l →
    tiles cursor (filled binary_length prev cursor l) binary_length.
Proof.
  induction l as [|[k s] l IH]; intros prev c Hprev Hch; simpl in *.
  - assert (Hp : prev ≠ Some c) by (intros ->; specialize (Hprev c eq_refl); lia).
    rewrite (bool_decide_eq_false_2 _ Hp), andb_true_r.
    destruct (N.ltb_spec c binary_length); simpl.
    + rewrite padding_section_span, padding_section_end. lia.
    + lia.
  - destruct Hch as (Hck & Hspan & Hch).
    assert (Hp : prev ≠ Some c) by (intros ->; specialize (Hprev c eq_refl); lia).
    rewrite (bool_decide_eq_false_2 _ Hp), andb_true_r.
    assert (Ht : tiles (section_end k s)
                   (filled binary_length (Some k) (section_end k s) l)
                   binary_length).
    { apply IH; [|exact Hch]. intros p [= <-]. unfold section_end. lia. }
    destruct (N.ltb_spec c k); simpl.
    + rewrite padding_section_span, padding_section_end.
      replace (c + (k - c)) with k by lia. repeat split; try done; lia.
    + repeat split; try done; lia.
Qed.

Lemma well_formed_chained (binary_length : N)
    (l : list (N * BinarySection)) :
  ∀ cursor,
    ascending l →
    (∀ k s, (k, s) ∈ l →
            cursor ≤ k ∧ 0 < section_span s ∧ section_end k s ≤ binary_length) →
    (∀ k1 s1 k2 s2, (k1, s1) ∈ l → (k2, s2) ∈ l → k1 < k2 →
                    section_end k1 s1 ≤ k2) →
    cursor ≤ binary_length →
    chained binary_length cursor l.
Proof.
  induction l as [|[k s] l IH]; intros c Hasc Hwf Hdisj Hc; simpl; [exact Hc|].
  apply ascending_cons in Hasc as [Hk Hasc]. simpl in Hk.
  destruct (Hwf k s) as (Hck & Hsp & Hend); [by left|].
  split; [done|]. split; [done|].
  apply IH; [exact Hasc| | |done].
  - intros k' s' Hin. destruct (Hwf k' s') as (_ & Hsp' & Hend'); [by right|].
    split; [|done]. apply (Hdisj k s k' s'); [by left|by right|].
    rewrite Forall_forall in Hk. apply (Hk (k', s') Hin).
  - intros k1 s1 k2 s2 Hin1 Hin2. apply (Hdisj k1 s1 k2 s2); by right.
Qed.

Lemma tiles_bounds (l : list (N * BinarySection)) :
  ∀ a b, tiles a l b →
         a ≤ b ∧ ∀ k s, (k, s) ∈ l → a ≤ k ∧ section_end k s ≤ b.
Proof.
  induction l as [|[k0 s0] l IH]; intros a b Ht; simpl in Ht.
  - subst. split; [lia|]. intros k s Hin. set_solver.
  - destruct Ht as (-> & Hspan & Ht). destruct (IH _ _ Ht) as [Hle Hall].
    unfold section_end in *. split; [lia|].
    intros k s Hin. apply elem_of_cons in Hin as [[= -> ->]|Hin]; [lia|].
    destruct (Hall k s Hin). lia.
Qed.

Lemma tiles_cover (l : list (N * BinarySection)) :
  ∀ a b i, tiles a l b → a ≤ i → i < b →
           ∃ k s, (k, s) ∈ l ∧ covers k s i.
Proof.
  induction l as [|[k0 s0] l IH]; intros a b i Ht Ha Hb; simpl in Ht.
  - lia.
  - destruct Ht as (-> & Hspan & Ht).
    destruct (N.lt_ge_cases i (section_end a s0)) as [Hi|Hi].
    + exists a, s0. split; [by left|]. split; done.
    + destruct (IH _ _ i Ht Hi Hb) as (k & s & Hin & Hc).
      exists k, s. split; [by right|done].
Qed.

Lemma tiles_disjoint (l : list (N * BinarySection)) :
  ∀ a b k1 s1 k2 s2,
    tiles a l b → (k1, s1) ∈ l → (k2, s2) ∈ l → k1 < k2 →
    section_end k1 s1 ≤ k2.
Proof.
  induction l as [|[k0 s0] l IH]; intros a b k1 s1 k2 s2 Ht H1 H2 Hlt;
    simpl in Ht; [set_solver|].
  destruct Ht as (-> & Hspan & Ht).
  destruct (tiles_bounds _ _ _ Ht) as [_ Hall].
  apply elem_of_cons in H1 as [[= -> ->]|H1];
    apply elem_of_cons in H2 as [[= -> ->]|H2].
  - lia.
  - destruct (Hall _ _ H2). lia.
  - destruct (Hall _ _ H1). unfold section_end in *. lia.
  - eapply IH; eauto.
Qed.

Lemma tiles_partition (binary_length : N) (m : gmap N BinarySection)
    (l : list (N * BinarySection)) :
  (∀ k s, (k, s) ∈ l ↔ m !! k = Some s) →
  tiles 0 l binary_length →
  partition binary_length m.
Proof.
  intros Helem Ht. destruct (tiles_bounds _ _ _ Ht) as [_ Hall].
  split; [|split].
  - intros i Hi. destruct (tiles_cover l 0 binary_length i Ht) as (k & s & Hin & Hc);
      [lia|done|].
    exists k, s. split; [by apply Helem|]. split; [done|].
    intros k' s' Hin' Hc'. apply Helem in Hin'.
    destruct Hc as [Hc1 Hc2], Hc' as [Hc1' Hc2'].
    destruct (N.lt_trichotomy k' k) as [Hlt|[Heq|Hgt]]; [|done|].
    + pose proof (tiles_disjoint _ _ _ _ _ _ _ Ht Hin' Hin Hlt). lia.
    + pose proof (tiles_disjoint _ _ _ _ _ _ _ Ht Hin Hin' Hgt). lia.
  - intros k s Hk. apply Helem in Hk. by destruct (Hall k s Hk).
  - intros k1 s1 k2 s2 Hk1 Hk2.
    apply Helem in Hk1. apply Helem in Hk2.
    eapply tiles_disjoint; eauto.
Qed.

Lemma missing_sections_padding (binary_length : N)
    (l : list (N * BinarySection)) :
  ∀ cursor k s,
    (k, s) ∈ missing_sections binary_length cursor l →
    ∃ n, 0 < n ∧ s = padding_section k n.
Proof.
  induction l as [|[k0 s0] l IH]; intros c k s; simpl.
  - destruct (N.ltb_spec c binary_length); [|set_solver].
    intros Hin. apply list_elem_of_singleton in Hin. injection Hin as -> ->.
    exists (binary_length - c). split; [lia|done].
  - rewrite elem_of_app. intros [Hin|Hin]; [|eauto].
    destruct (N.ltb_spec c k0); [|set_solver].
    apply list_elem_of_singleton in Hin. injection Hin as -> ->.
    exists (k0 - c). split; [lia|done].
Qed.

Lemma missing_sections_in_filled (binary_length : N)
    (l : list (N * BinarySection)) :
  ∀ prev cursor x,
    (∀ p, prev = Some p → p < cursor) →
    chained binary_length cursor l →
    x ∈ missing_sections binary_length cursor l →
    x ∈ filled binary_length prev cursor l.
Proof.
  induction l as [|[k s] l IH]; intros prev c x Hprev Hch; simpl in *.
  - assert (Hp : prev ≠ Some c) by (intros ->; specialize (Hprev c eq_refl); lia).
    by rewrite (bool_decide_eq_false_2 _ Hp), andb_true_r.
  - destruct Hch as (Hck & Hspan & Hch).
    assert (Hp : prev ≠ Some c) by (intros ->; specialize (Hprev c eq_refl); lia).
    rewrite (bool_decide_eq_false_2 _ Hp), andb_true_r.
    rewrite !elem_of_app, elem_of_cons. intros [Hin|Hin]; [by left|].
    right. right. apply IH; [|exact Hch|exact Hin].
    intros p [= <-]. unfold section_end. lia.
Qed.

Lemma Annotate_eq (schema_ : reflection.Schema) (binary_ : pointer)
    (kFileIdentifierLength : N) (fuel : nat) (binary_length : N)
    (st : BinaryAnnotator) :
  Annotate schema_ binary_ kFileIdentifierLength fuel binary_length st
  = match BuildRoot schema_ binary_ kFileIdentifierLength fuel st with
    | Some (_, st1) =>
        match FixMissingSections binary_length st1 with
        | Some (_, st2) => Some (sections_ st2, st2)
        | None => None
        end
    | None => None
    end.
Proof.
  unfold Annotate, bind.
  destruct (BuildRoot _ _ _ _ st) as [[[] st1]|]; [|reflexivity].
  destruct (FixMissingSections binary_length st1) as [[[] st2]|]; reflexivity.
Qed.

Lemma Decoder_BuildRoot (schema_ : reflection.Schema) (binary_ : pointer)
    (kFileIdentifierLength : N) (fuel : nat) :
  Decoder schema_ binary_ unit
    (BuildRoot schema_ binary_ kFileIdentifierLength fuel).
Proof.
  unfold BuildRoot. apply Decoder_bind; [apply Decoder_BuildHeader|].
  intros root. by apply Decoder_BuildTable.
Qed.



Lemma well_formed_list_spec (binary_length : N) (m : gmap N BinarySection) :
  well_formed_list binary_length (map_to_list m) → well_formed binary_length m.
Proof.
  intros [Hwf Hdisj]. rewrite Forall_forall in Hwf, Hdisj. split.
  - intros k s Hk. apply (Hwf (k, s)). by apply elem_of_map_to_list.
  - intros k1 s1 k2 s2 Hk1 Hk2.
    assert (Hin1 : (k1, s1) ∈ map_to_list m) by by apply elem_of_map_to_list.
    assert (Hin2 : (k2, s2) ∈ map_to_list m) by by apply elem_of_map_to_list.
    specialize (Hdisj _ Hin1). rewrite Forall_forall in Hdisj.
    apply (Hdisj _ Hin2).
Qed.


(** ** Running [Annotate] again *)

Lemma FixMissingSections_extends (binary_length : N)
    (st st' : BinaryAnnotator) :
  FixMissingSections binary_length st = Some ((), st') → extends st st'.
Proof.
  rewrite FixMissingSections_eq. intros [= <-].
  repeat split; simpl; try done. apply map_union_subseteq_l.
Qed.




(** ** Shared vtables and shared strings *)

Lemma Annotate_decoded (schema_ : reflection.Schema) (binary_ : pointer)
    (kFileIdentifierLength : N) (fuel : nat) (binary_length : N)
    (m : gmap N BinarySection) (st : BinaryAnnotator) :
  Annotate schema_ binary_ kFileIdentifierLength fuel binary_length
    BinaryAnnotator_new = Some (m, st) →
  ∃ st1,
    Inv binary_ st1
    ∧ vtables_ st = vtables_ st1 ∧ strings_ st = strings_ st1
    ∧ sections_ st = m
    ∧ sections_ st1 ⊆ m
    ∧ ∀ k s, m !! k = Some s →
             sections_ st1 !! k = Some s
             ∨ section_type s = BinarySectionType.Padding.
Proof.
  rewrite Annotate_eq.
  destruct (BuildRoot _ _ _ _ BinaryAnnotator_new) as [[[] st1]|] eqn:Eroot;
    [|discriminate].
  rewrite FixMissingSections_eq. intros [= <- <-]. simpl.
  exists st1. split.
  { eapply Decoder_Inv; [apply Decoder_BuildRoot|apply Inv_new|exact Eroot]. }
  split; [done|]. split; [done|]. split; [done|].
  split; [apply map_union_subseteq_l|].
  intros k s Hk. apply lookup_union_Some_raw in Hk as [Hk|[_ Hk]]; [by left|].
  right. apply elem_of_list_to_map_2 in Hk.
  by destruct (missing_sections_padding _ _ _ _ _ Hk) as (n & _ & ->).
Qed.

Lemma table_section_leading (binary_ : pointer) (st1 : BinaryAnnotator)
    (m : gmap N BinarySection) (A : N) (sA : BinarySection) :
  Inv binary_ st1 →
  (∀ k s, m !! k = Some s →
          sections_ st1 !! k = Some s
          ∨ section_type s = BinarySectionType.Padding) →
  m !! A = Some sA →
  is_table_type (section_type sA) = true →
  (∃ rest,
     regions sA
     = {| offset := A; length := 4; type := BinaryRegionType.SOffset;
          array_length := 0;
          points_to_offset := vtable_offset_of binary_ A;
          comment := "offset to vtable" |} :: rest)
  ∧ is_Some (vtables_ st1 !! vtable_offset_of binary_ A).
Proof.
  intros HI Hnew HA Htype.
  destruct (Hnew _ _ HA) as [Hold|Hpad];
    [|rewrite Hpad in Htype; discriminate].
  exact (inv_tables _ _ HI _ _ Hold Htype).
Qed.




Lemma BuildTableField_string (schema_ : reflection.Schema)
    (binary_ : pointer)
    (BuildTable_ : N → BinarySectionType.t → reflection.Object → M unit)
    (T : N) (table : reflection.Object) (vtable : VTable.t)
    (regions : list BinaryRegion) (entry : VTable.Entry)
    (st : BinaryAnnotator) :
  reflection.base_type (reflection.field_type (VTable.field entry))
  = reflection.String →
  ∃ st',
    BuildTableField schema_ binary_ BuildTable_ T table vtable regions entry st
    = Some
        (regions ++
         [{| offset := add64 T (VTable.offset_from_table entry);
             length := 4; type := BinaryRegionType.UOffset;
             array_length := 0;
             points_to_offset :=
               forward_target binary_
                 (add64 T (VTable.offset_from_table entry));
             comment := reflection.field_name (VTable.field entry) |}], st')
    ∧ BuildString binary_
        (forward_target binary_ (add64 T (VTable.offset_from_table entry)))
        table (VTable.field entry) st = Some ((), st').
Proof.
  intros Hty. unfold BuildTableField. rewrite Hty. simpl.
  destruct (BuildString_eq binary_
              (forward_target binary_
                 (add64 T (VTable.offset_from_table entry)))
              table (VTable.field entry) st) as (st' & Hrun & _).
  exists st'. unfold bind. rewrite Hrun. split; reflexivity.
Qed.




(** ** No failure outcome *)

Lemma BuildTable_section_present (schema_ : reflection.Schema)
    (binary_ : pointer) (fuel : nat) (offset : N)
    (type : BinarySectionType.t) (table : reflection.Object)
    (st st' : BinaryAnnotator) :
  BuildTable schema_ binary_ fuel offset type table st = Some ((), st') →
  is_Some (sections_ st' !! offset).
Proof.
  destruct fuel as [|fuel]; [discriminate|]. simpl.
  unfold BuildTable_body, bind.
  destruct (BuildVTable _ _ _ st) as [[[] st1]|]; [|discriminate].
  destruct (cached_vtable _ st1) as [[vt st2]|]; [|discriminate].
  destruct (foldM _ _ _ st2) as [[regions st3]|]; [|discriminate].
  intros Hrun.
  destruct (AddSection_eq offset
              {| name := reflection.object_name table; section_type := type;
                 regions :=
                   offset_region offset 4 BinaryRegionType.SOffset
                     (vtable_offset_of binary_ offset) "offset to vtable"
                   :: sort_by region_offset regions |} st3)
    as (st4 & Hrun4 & _ & _ & Hsec).
  rewrite Hrun in Hrun4. injection Hrun4 as <-. rewrite Hsec.
  destruct (sections_ st3 !! offset) eqn:E; [rewrite E; eauto|].
  rewrite lookup_insert_eq. eauto.
Qed.


(** A call of [Annotate] that has returned has returned the map of the
    members: it holds the Header section, whose offset region records the
    root offset as it was read, and a section keyed at that root offset,
    wherever that offset lies. *)
Lemma Annotate_map_of_a_return (schema_ : reflection.Schema)
    (binary_ : pointer) (kFileIdentifierLength : N) (fuel : nat)
    (binary_length : N) (m : gmap N BinarySection) (st : BinaryAnnotator) :
  Annotate schema_ binary_ kFileIdentifierLength fuel binary_length
    BinaryAnnotator_new = Some (m, st) →
  (∃ header rest,
     m !! 0 = Some header
     ∧ section_type header = BinarySectionType.Header
     ∧ regions header
       = {| offset := 0; length := 4; type := BinaryRegionType.UOffset;
            array_length := 0;
            points_to_offset := read_u32 binary_ 0;
            comment := "offset to root table" |} :: rest)
  ∧ is_Some (m !! read_u32 binary_ 0)
  ∧ sections_ st = m.
Proof.
  rewrite Annotate_eq.
  destruct (BuildRoot _ _ _ _ BinaryAnnotator_new) as [[[] st1]|] eqn:Eroot;
    [|discriminate].
  rewrite FixMissingSections_eq. intros [= <- <-]. simpl.
  unfold BuildRoot, bind in Eroot.
  rewrite BuildHeader_eq in Eroot by reflexivity. simpl in Eroot.
  fold (read_u32 binary_ 0) in Eroot.
  match type of Eroot with
  | BuildTable _ _ _ _ _ _ ?x = _ => set (stH := x) in *
  end.
  destruct (Decoder_Stable _ _ _ _
              (Decoder_BuildTable schema_ binary_ fuel (read_u32 binary_ 0)
                 BinarySectionType.RootTable (reflection.root_table schema_)
                 eq_refl) _ _ _ Eroot) as [Hext _].
  split; [|split; [|reflexivity]].
  - eexists _, _. split.
    + apply lookup_union_Some_raw. left.
      eapply extends_sections; [exact Hext|]. subst stH. simpl.
      apply lookup_insert_eq.
    + split; reflexivity.
  - destruct (BuildTable_section_present _ _ _ _ _ _ _ _ Eroot) as [x Hx].
    exists x. apply lookup_union_Some_raw. by left.
Qed.

(** ** Recursion *)

Lemma load_le_zero (p : pointer) (at_ : N) (width : nat) :
  (∀ i, at_ ≤ i → p i = Byte.x00) → load_le p at_ width = 0.
Proof.
  revert at_. induction width as [|w IH]; intros at_ Hz; [reflexivity|].
  simpl. rewrite Hz by lia. rewrite IH; [reflexivity|].
  intros i Hi. apply Hz. lia.
Qed.

Lemma GetScalar_zero (binary_ : pointer) (L : N) (T : ScalarType)
    (offset : N) :
  zero_from binary_ L → L ≤ offset →
  BinaryAnnotator_GetScalar binary_ T offset = 0%Z.
Proof.
  intros Hz Hoff. unfold BinaryAnnotator_GetScalar, GetScalar.
  rewrite load_le_zero; [by destruct T|].
  intros i _. unfold ptr_add. apply Hz. lia.
Qed.

Lemma read_u16_zero (binary_ : pointer) (L offset : N) :
  zero_from binary_ L → L ≤ offset → read_u16 binary_ offset = 0.
Proof. intros. unfold read_u16. by erewrite GetScalar_zero. Qed.

Lemma read_u32_zero (binary_ : pointer) (L offset : N) :
  zero_from binary_ L → L ≤ offset → read_u32 binary_ offset = 0.
Proof. intros. unfold read_u32. by erewrite GetScalar_zero. Qed.

Lemma sub64_0 (a : N) : a < two64 → sub64 a 0 = a.
Proof.
  intros Ha. unfold sub64. rewrite Z.sub_0_r.
  rewrite Z.mod_small by (unfold two64 in *; lia). apply N2Z.id.
Qed.

Lemma vtable_offset_of_zero (binary_ : pointer) (L T : N) :
  zero_from binary_ L → L ≤ T → T < two64 → vtable_offset_of binary_ T = T.
Proof.
  intros Hz HT Hlt. unfold vtable_offset_of.
  erewrite GetScalar_zero by eauto. by apply sub64_0.
Qed.

Lemma forward_target_bounds (binary_ : pointer) (slot : N) :
  slot + 2 ^ 32 ≤ two64 →
  slot ≤ forward_target binary_ slot
  ∧ forward_target binary_ slot < slot + 2 ^ 32.
Proof.
  intros Hs. unfold forward_target.
  pose proof (read_u32_bound binary_ slot).
  rewrite add64_small by lia. lia.
Qed.

Lemma reach_lt_two64 : reach + 2 ^ 18 < two64.
Proof. unfold reach, two64. lia. Qed.

Lemma entries_by_id_elem (vtable : VTable.t) (e : VTable.Entry) :
  e ∈ entries_by_id vtable ↔ ∃ id, VTable.fields vtable !! id = Some e.
Proof.
  unfold entries_by_id, sort_by. rewrite list_elem_of_fmap. split.
  - intros ([id e'] & -> & Hin). rewrite merge_sort_Permutation in Hin.
    apply elem_of_map_to_list in Hin. eauto.
  - intros [id Hid]. exists (id, e). split; [done|].
    rewrite merge_sort_Permutation. by apply elem_of_map_to_list.
Qed.

Lemma decode_vtable_entry_bound (binary_ : pointer) (V : N)
    (table : reflection.Object) (e : VTable.Entry) :
  e ∈ entries_by_id (decode_vtable binary_ V table) →
  VTable.offset_from_table e < 2 ^ 16.
Proof.
  intros [id Hid]%entries_by_id_elem. simpl in Hid.
  apply elem_of_list_to_map_2 in Hid.
  apply list_elem_of_fmap in Hid as ([f slot] & Heq & _).
  injection Heq as _ ->. simpl. apply read_u16_bound.
Qed.

Lemma fields_by_id_index (table : reflection.Object) (i : N)
    (f : reflection.Field) :
  (i, f) ∈ fields_by_id table →
  i < N.of_nat (List.length (reflection.object_fields table)).
Proof.
  unfold fields_by_id. intros Hin.
  apply list_elem_of_lookup in Hin as [j Hj].
  rewrite list_lookup_imap in Hj.
  destruct (sort_by reflection.field_id (reflection.object_fields table) !! j)
    as [y|] eqn:Ey; [|discriminate].
  injection Hj as <- <-. apply lookup_lt_Some in Ey.
  unfold sort_by in Ey. rewrite merge_sort_Permutation in Ey. lia.
Qed.

Lemma known_slots_zero (binary_ : pointer) (L V : N)
    (table : reflection.Object) :
  zero_from binary_ L → L ≤ V → V < reach → object_ok table →
  known_slots binary_ V table = [].
Proof.
  intros Hz HV Hreach Hok. unfold known_slots.
  pose proof reach_lt_two64 as Hr. unfold two64 in Hr.
  assert (Hall : ∀ x, x ∈ fields_by_id table →
                      (let '(i, f) := x in
                       if slot_offset V i <? add64 V (read_u16 binary_ V)
                       then Some (f, slot_offset V i) else None) = None).
  { intros [i f] Hin. apply fields_by_id_index in Hin.
    unfold object_ok in Hok.
    rewrite (read_u16_zero binary_ L) by done.
    unfold slot_offset.
    rewrite !add64_small by (unfold two64; rewrite ?add64_small;
                             unfold two64; lia).
    destruct (N.ltb_spec (V + 4 + 2 * i) (V + 0)); [lia|done]. }
  revert Hall. generalize (fields_by_id table). intros l.
  induction l as [|x l IH]; intros Hall; [reflexivity|].
  simpl. rewrite (Hall x) by (by left). apply IH.
  intros y Hy. apply Hall. by right.
Qed.

Lemma decode_vtable_zero (binary_ : pointer) (L V : N)
    (table : reflection.Object) :
  zero_from binary_ L → L ≤ V → V < reach → object_ok table →
  entries_by_id (decode_vtable binary_ V table) = [].
Proof.
  intros Hz HV Hreach Hok.
  unfold entries_by_id, decode_vtable; simpl.
  rewrite (known_slots_zero binary_ L) by done. simpl.
  rewrite map_to_list_empty. reflexivity.
Qed.

Lemma Terminates_ret {A} (L : N) (a : A) : Terminates L (ret a).
Proof. intros st Hok. by exists a, st. Qed.

Lemma Terminates_bind {A B} (L : N) (m : M A) (k : A → M B) :
  Terminates L m → (∀ a, Terminates L (k a)) → Terminates L (bind m k).
Proof.
  intros Hm Hk st Hok. destruct (Hm st Hok) as (a & st1 & Hrun & Hok1).
  destruct (Hk a st1 Hok1) as (b & st2 & Hrun2 & Hok2).
  exists b, st2. unfold bind. rewrite Hrun. by split.
Qed.

Lemma Terminates_foldM {A B} (L : N) (body : B → A → M B) (l : list A) :
  (∀ acc x, x ∈ l → Terminates L (body acc x)) →
  ∀ acc, Terminates L (foldM body acc l).
Proof.
  induction l as [|x l IH]; intros Hbody acc; simpl.
  - apply Terminates_ret.
  - apply Terminates_bind; [apply Hbody; by left|].
    intros acc'. apply IH. intros acc'' y Hy. apply Hbody. by right.
Qed.

Lemma Terminates_AddSection (L offset : N) (s : BinarySection) :
  Terminates L (AddSection offset s).
Proof.
  intros st Hok.
  destruct (AddSection_eq offset s st) as (st' & Hrun & Hv & _).
  exists (), st'. split; [exact Hrun|].
  intros V vt. rewrite Hv. apply Hok.
Qed.

Lemma Terminates_BuildString (binary_ : pointer) (L offset : N)
    (table : reflection.Object) (field : reflection.Field) :
  Terminates L (BuildString binary_ offset table field).
Proof.
  intros st Hok.
  destruct (BuildString_eq binary_ offset table field st)
    as (st' & Hrun & _ & _ & Hv & _).
  exists (), st'. split; [exact Hrun|].
  intros V vt. rewrite Hv. apply Hok.
Qed.

Lemma indices_elem (n i : N) : i ∈ indices n → i < n.
Proof.
  unfold indices. intros Hin.
  apply list_elem_of_fmap in Hin as (j & -> & Hj).
  apply elem_of_seq in Hj. lia.
Qed.

Section Termination.

Variable schema_ : reflection.Schema.
Variable binary_ : pointer.
Variable L : N.

Hypothesis zero_tail : zero_from binary_ L.
Hypothesis L_bound : L ≤ 2 ^ 63.
Hypothesis schema_wf : schema_ok schema_.

Lemma object_of_ok (ty : reflection.Type_) (table : reflection.Object) :
  object_of schema_ ty = Some table →
  object_ok table ∧ table ∈ reflection.objects schema_.
Proof.
  unfold object_of. intros Hlook.
  apply list_elem_of_lookup_2 in Hlook.
  destruct schema_wf as (_ & Hall & _).
  rewrite Forall_forall in Hall. split; [by apply Hall|done].
Qed.

Lemma Terminates_call_BuildStruct (offset : N)
    (regions : list BinaryRegion) (structure : reflection.Object) :
  structure ∈ reflection.objects schema_ →
  reflection.is_struct structure = true →
  Terminates L (call_BuildStruct schema_ offset regions structure).
Proof.
  intros Hin Hstruct. unfold call_BuildStruct.
  destruct schema_wf as (_ & _ & Hs).
  destruct (Hs structure Hin Hstruct offset regions) as [[e r] ->].
  apply Terminates_ret.
Qed.

Lemma BuildVTable_terminates (V : N) (table : reflection.Object) :
  object_ok table →
  ∀ st, cache_ok L st →
        ∃ st' vtable,
          BuildVTable binary_ V table st = Some ((), st')
          ∧ cache_ok L st'
          ∧ vtables_ st' !! V = Some vtable.
Proof.
  intros Hobj st Hok.
  destruct (BuildVTable_eq binary_ V table st)
    as (st' & vt & Hrun & _ & Hvt & _ & Hcase).
  exists st', vt. split; [exact Hrun|]. split; [|exact Hvt].
  destruct (vtables_ st !! V) as [vt0|] eqn:E; [by subst|].
  destruct Hcase as (-> & Hv & _).
  intros V' vt'. rewrite Hv. destruct (decide (V = V')) as [<-|Hne].
  - rewrite lookup_insert_eq. intros [= <-]. split.
    + intros e. apply decode_vtable_entry_bound.
    + intros. by eapply decode_vtable_zero.
  - rewrite lookup_insert_ne by done. apply Hok.
Qed.

Variable BuildTable_ : N → BinarySectionType.t → reflection.Object → M unit.

Lemma Terminates_BuildUnion (target realized_type : N)
    (field : reflection.Field) :
  (∀ type table, object_ok table →
                 Terminates L (BuildTable_ target type table)) →
  Terminates L (BuildUnion schema_ BuildTable_ target realized_type field).
Proof.
  intros Hrec. unfold BuildUnion.
  repeat case_match; try apply Terminates_ret.
  all: match goal with
       | H : object_of _ _ = Some _ |- _ =>
           destruct (object_of_ok _ _ H) as [Hobj Hin]
       end.
  - apply Terminates_bind; [|intros; apply Terminates_ret].
    apply Terminates_bind; [by apply Terminates_call_BuildStruct|].
    intros. apply Terminates_AddSection.
  - apply Terminates_bind; [|intros; apply Terminates_ret]. by apply Hrec.
Qed.

Lemma Terminates_vector_reference (field : reflection.Field)
    (table : reflection.Object) (tag_of : N → N)
    (regions : list BinaryRegion) (i slot : N) :
  (∀ type table, object_ok table →
                 Terminates L
                   (BuildTable_ (forward_target binary_ slot) type table)) →
  Terminates L
    (vector_reference schema_ binary_ BuildTable_ field table tag_of regions
       (i, slot)).
Proof.
  intros Hrec. unfold vector_reference.
  repeat case_match; try apply Terminates_ret;
    (apply Terminates_bind; [|intros; apply Terminates_ret]).
  all: try apply Terminates_BuildString.
  all: try (by apply Terminates_BuildUnion).
  all: match goal with
       | H : object_of _ _ = Some _ |- _ =>
           destruct (object_of_ok _ _ H) as [Hobj Hin]
       end; by apply Hrec.
Qed.

Lemma vector_slot_bounds (O i : N) :
  O + 2 ^ 35 ≤ two64 → i < 2 ^ 32 →
  add64 (add64 O 4) (4 * i) = O + 4 + 4 * i.
Proof.
  intros HO Hi. unfold two64 in HO.
  rewrite (add64_small O 4) by (unfold two64; lia).
  rewrite add64_small by (unfold two64; lia). reflexivity.
Qed.

Lemma Terminates_BuildVector (O : N) (table : reflection.Object)
    (field : reflection.Field) (parent_table_offset : N)
    (vtable : VTable.t) :
  O + 2 ^ 35 ≤ two64 →
  (∀ target type table,
     O < target → target < O + 2 ^ 35 → object_ok table →
     Terminates L (BuildTable_ target type table)) →
  Terminates L
    (BuildVector schema_ binary_ BuildTable_ O table field
       parent_table_offset vtable).
Proof.
  intros HO Hrec. unfold BuildVector.
  pose proof (read_u32_bound binary_ O) as Hcount.
  assert (Href : ∀ tag_of regions x,
             x ∈ (λ i, (i, add64 (add64 O 4) (4 * i)))
                 <$> indices (read_u32 binary_ O) →
             Terminates L
               (vector_reference schema_ binary_ BuildTable_ field table
                  tag_of regions x)).
  { intros tag_of regions x Hx.
    apply list_elem_of_fmap in Hx as (i & -> & Hi%indices_elem).
    apply Terminates_vector_reference. intros type tbl Hobj.
    rewrite vector_slot_bounds by (done || lia).
    unfold two64 in HO.
    destruct (forward_target_bounds binary_ (O + 4 + 4 * i))
      as [Hlo Hhi]; [unfold two64; lia|].
    apply Hrec; [lia|lia|done]. }
  apply Terminates_bind; [|intros; apply Terminates_AddSection].
  repeat case_match; try apply Terminates_ret.
  all: try (apply Terminates_foldM; intros; by apply Href).
  apply Terminates_foldM. intros regions i _.
  match goal with
  | H : object_of _ _ = Some _ |- _ =>
      destruct (object_of_ok _ _ H) as [Hobj Hin]
  end.
  by apply Terminates_call_BuildStruct.
Qed.

Lemma Terminates_BuildTableField (T : N) (table : reflection.Object)
    (vtable : VTable.t) (regions : list BinaryRegion)
    (entry : VTable.Entry) :
  T < L →
  0 < VTable.offset_from_table entry →
  VTable.offset_from_table entry < 2 ^ 16 →
  (∀ target type table,
     T < target → target < reach → object_ok table →
     Terminates L (BuildTable_ target type table)) →
  Terminates L
    (BuildTableField schema_ binary_ BuildTable_ T table vtable regions
       entry).
Proof.
  intros HT Hpos Hfo Hrec. unfold BuildTableField.
  set (fo := VTable.offset_from_table entry) in *.
  assert (Hslot : add64 T fo = T + fo) by (apply add64_small; unfold two64; lia).
  rewrite Hslot.
  destruct (forward_target_bounds binary_ (T + fo)) as [Hlo Hhi];
    [unfold two64; lia|].
  set (target := forward_target binary_ (T + fo)) in *.
  assert (Hcall : ∀ type tbl, object_ok tbl →
                              Terminates L (BuildTable_ target type tbl)).
  { intros type tbl Hobj. apply Hrec; [lia|unfold reach; lia|done]. }
  repeat case_match; try apply Terminates_ret;
    try (apply Terminates_bind; [|intros; apply Terminates_ret]).
  all: try apply Terminates_BuildString.
  all: try (by apply Terminates_BuildUnion).
  all: try (apply Terminates_BuildVector; [unfold two64; lia|];
            intros tgt type tbl Hgt Hlt Hobj;
            apply Hrec; [lia|unfold reach; lia|done]).
  all: match goal with
       | H : object_of _ _ = Some _ |- _ =>
           destruct (object_of_ok _ _ H) as [Hobj Hin]
       end.
  all: first [by apply Terminates_call_BuildStruct|by apply Hcall].
Qed.

Lemma Terminates_BuildTable_body (T : N) (type : BinarySectionType.t)
    (table : reflection.Object) :
  T < reach → object_ok table →
  (T < L →
   ∀ target type table,
     T < target → target < reach → object_ok table →
     Terminates L (BuildTable_ target type table)) →
  Terminates L (BuildTable_body schema_ binary_ BuildTable_ T type table).
Proof.
  intros HT Hobj Hrec st Hok. unfold BuildTable_body.
  pose proof reach_lt_two64 as Hr.
  destruct (BuildVTable_terminates (vtable_offset_of binary_ T) table Hobj
              st Hok) as (st1 & vt & Hrun1 & Hok1 & Hvt).
  unfold bind at 1. rewrite Hrun1.
  unfold bind at 1, cached_vtable. rewrite Hvt. simpl.
  apply Terminates_bind; [|intros; apply Terminates_AddSection|exact Hok1].
  destruct (Hok1 _ _ Hvt) as [Hbound Hzero].
  destruct (N.lt_ge_cases T L) as [Hlt|Hge].
  - apply Terminates_foldM. intros regions e He.
    destruct (N.eqb_spec (VTable.offset_from_table e) 0);
      [apply Terminates_ret|].
    apply Terminates_BuildTableField; [done|lia|by apply Hbound|by apply Hrec].
  - rewrite (vtable_offset_of_zero binary_ L) in Hzero by (done || lia).
    rewrite Hzero by done. apply Terminates_ret.
Qed.

End Termination.

Lemma BuildTable_terminates (schema_ : reflection.Schema) (binary_ : pointer)
    (L : N) (n : nat) :
  zero_from binary_ L → L ≤ 2 ^ 63 → schema_ok schema_ →
  ∀ T type table,
    T < reach → object_ok table → L ≤ T + N.of_nat n →
    Terminates L (BuildTable schema_ binary_ (S n) T type table).
Proof.
  intros Hz HL Hs.
  induction n as [|n IH]; intros T type table HT Hobj Hn;
    cbn [BuildTable];
    apply (Terminates_BuildTable_body schema_ binary_ L Hz HL Hs); try done.
  - intros Hlt. lia.
  - intros Hlt target type' table' Hgt Hreach Hobj'.
    apply IH; [done|done|lia].
Qed.

(** ** An endless chain of tables *)

Lemma chain_binary_shift (V c : N) :
  V mod 16 = 0 → chain_binary (V + c) = chain_binary c.
Proof.
  intros HV. unfold chain_binary.
  rewrite N.Div0.add_mod, HV, N.add_0_l, N.Div0.mod_mod. reflexivity.
Qed.

Lemma chain_GetScalar_shift (T : ScalarType) (V c : N) :
  V mod 16 = 0 →
  BinaryAnnotator_GetScalar chain_binary T (V + c)
  = BinaryAnnotator_GetScalar chain_binary T c.
Proof.
  intros HV. unfold BinaryAnnotator_GetScalar, GetScalar. f_equal.
  apply load_le_ext. intros i _ _. unfold ptr_add.
  rewrite <- N.add_assoc. by apply chain_binary_shift.
Qed.

Lemma chain_vtable_offset (V : N) :
  V mod 16 = 0 → V + 6 < two64 →
  vtable_offset_of chain_binary (V + 6) = V.
Proof.
  intros HV Hlt. unfold vtable_offset_of.
  rewrite chain_GetScalar_shift by done.
  change (BinaryAnnotator_GetScalar chain_binary int32_t 6) with 6%Z.
  unfold sub64. unfold two64 in *.
  rewrite Z.mod_small by lia. lia.
Qed.

Lemma chain_next_table (V : N) :
  V mod 16 = 0 → V + 6 < two64 →
  ∃ V', V' mod 16 = 0 ∧ V' + 6 < two64
        ∧ forward_target chain_binary (add64 (V + 6) 4) = V' + 6.
Proof.
  intros HV Hlt. unfold forward_target.
  assert (Hslot : add64 (V + 6) 4 = V + 10).
  { rewrite add64_small; [lia|]. unfold two64 in *.
    pose proof (N.div_mod V 16). lia. }
  rewrite Hslot. unfold read_u32. rewrite chain_GetScalar_shift by done.
  change (Z.to_N (BinaryAnnotator_GetScalar chain_binary uint32_t 10)) with 12.
  unfold add64, two64 in *.
  pose proof (N.div_mod V 16) as Hdiv. rewrite HV in Hdiv.
  destruct (N.lt_ge_cases (V + 22) (2 ^ 64)) as [Hsmall|Hbig].
  - exists (V + 16). rewrite (N.mod_small (V + 10 + 12)) by lia.
    split; [|split; lia].
    rewrite N.Div0.add_mod, HV. reflexivity.
  - exists 0. assert (V + 16 = 2 ^ 64) as Heq by lia.
    split; [reflexivity|]. split; [lia|].
    replace (V + 10 + 12) with (6 + 1 * 2 ^ 64) by lia.
    rewrite N.Div0.mod_add. reflexivity.
Qed.

Lemma chain_entries (V : N) :
  V mod 16 = 0 → V + 6 < two64 →
  entries_by_id (decode_vtable chain_binary V Node)
  = [{| VTable.field :=
          {| reflection.field_name := "next";
             reflection.field_type := object_type 0;
             reflection.field_id := 0; reflection.field_offset := 0 |};
        VTable.offset_from_table := 4 |}].
Proof.
  intros HV Hlt.
  assert (Hsize : read_u16 chain_binary V = 6).
  { unfold read_u16. rewrite <- (N.add_0_r V) at 1.
    by rewrite chain_GetScalar_shift. }
  assert (Hslot0 : slot_offset V 0 = V + 4).
  { unfold slot_offset. unfold two64 in *.
    rewrite (add64_small V 4) by (unfold two64; lia).
    rewrite add64_small by (unfold two64; lia). lia. }
  assert (Hfo : read_u16 chain_binary (V + 4) = 4).
  { unfold read_u16. by rewrite chain_GetScalar_shift. }
  assert (Hknown : known_slots chain_binary V Node
                   = [({| reflection.field_name := "next";
                          reflection.field_type := object_type 0;
                          reflection.field_id := 0;
                          reflection.field_offset := 0 |}, V + 4)]).
  { unfold known_slots.
    change (fields_by_id Node)
      with [(0, {| reflection.field_name := "next";
                   reflection.field_type := object_type 0;
                   reflection.field_id := 0;
                   reflection.field_offset := 0 |})].
    cbn [omap list_omap]. rewrite Hslot0, Hsize.
    rewrite add64_small by (unfold two64 in *; lia).
    destruct (N.ltb_spec (V + 4) (V + 6)); [reflexivity|lia]. }
  unfold entries_by_id, decode_vtable. cbn [VTable.fields].
  rewrite Hknown. cbn [fmap list_fmap reflection.field_id list_to_map foldr
                        uncurry].
  rewrite Hfo, insert_empty, map_to_list_singleton. reflexivity.
Qed.

Lemma chain_cache_BuildVTable (V : N) (st : BinaryAnnotator) :
  chain_cache st →
  ∃ st' vtable,
    BuildVTable chain_binary V Node st = Some ((), st')
    ∧ chain_cache st'
    ∧ vtables_ st' !! V = Some vtable.
Proof.
  intros Hc.
  destruct (BuildVTable_eq chain_binary V Node st)
    as (st' & vt & Hrun & _ & Hvt & _ & Hcase).
  exists st', vt. split; [exact Hrun|]. split; [|exact Hvt].
  destruct (vtables_ st !! V) as [vt0|] eqn:E; [by subst|].
  destruct Hcase as (-> & Hv & _).
  intros V' vt'. rewrite Hv. destruct (decide (V = V')) as [<-|Hne].
  - rewrite lookup_insert_eq. by intros [= <-].
  - rewrite lookup_insert_ne by done. apply Hc.
Qed.

Lemma chain_BuildTable_never_returns (fuel : nat) :
  ∀ V type st,
    V mod 16 = 0 → V + 6 < two64 → chain_cache st →
    BuildTable node_schema chain_binary fuel (V + 6) type Node st = None.
Proof.
  induction fuel as [|fuel IH]; intros V type st HV Hlt Hc; [reflexivity|].
  cbn [BuildTable]. unfold BuildTable_body.
  rewrite chain_vtable_offset by done.
  destruct (chain_cache_BuildVTable V st Hc) as (st1 & vt & Hrun1 & Hc1 & Hvt).
  unfold bind at 1. rewrite Hrun1.
  unfold bind at 1, cached_vtable. rewrite Hvt. cbn [default]. unfold id.
  rewrite (Hc1 _ _ Hvt HV) by (unfold two64 in *; lia).
  rewrite chain_entries by done.
  destruct (chain_next_table V HV Hlt) as (V' & HV' & Hlt' & Htarget).
  unfold bind at 1. cbn [foldM VTable.offset_from_table N.eqb].
  unfold bind at 1, BuildTableField.
  cbn [VTable.field VTable.offset_from_table reflection.field_type
       reflection.base_type object_type reflection.is_scalar].
  change (object_of node_schema (object_type 0)) with (Some Node).
  cbv beta iota. change (reflection.is_struct Node) with false.
  cbv beta iota. rewrite Htarget. unfold bind at 1.
  rewrite IH by done. reflexivity.
Qed.

Lemma chain_Annotate_none (fuel : nat) (binary_length : N) :
  Annotate node_schema chain_binary 4 fuel binary_length BinaryAnnotator_new
  = None.
Proof.
  rewrite Annotate_eq. unfold BuildRoot, bind.
  rewrite BuildHeader_eq by reflexivity.
  change (0 + Z.to_N (BinaryAnnotator_GetScalar chain_binary uint32_t 0))
    with (0 + 6).
  rewrite chain_BuildTable_never_returns; [reflexivity|reflexivity| |].
  - unfold two64. lia.
  - intros V vt H. simpl in H. rewrite lookup_empty in H. discriminate.
Qed.


(** On bytes that are zero from [L] on, the decode of the root table
    returns within a nesting of [L + 1] calls, and so does [Annotate]. *)
Lemma Annotate_terminates (schema_ : reflection.Schema)
    (binary_ : pointer) (kFileIdentifierLength : N) (L binary_length : N) :
  zero_from binary_ L →
  L ≤ 2 ^ 63 →
  schema_ok schema_ →
  ∃ m st,
    Annotate schema_ binary_ kFileIdentifierLength (S (N.to_nat L))
      binary_length BinaryAnnotator_new = Some (m, st).
Proof.
  intros Hz HL Hs. rewrite Annotate_eq.
  unfold BuildRoot, bind. rewrite BuildHeader_eq by reflexivity.
  pose proof (read_u32_bound binary_ 0) as Hroot. unfold read_u32 in Hroot.
  set (root := 0 + Z.to_N (BinaryAnnotator_GetScalar binary_ uint32_t 0)) in *.
  assert (Hreach : root < reach).
  { unfold reach, root. assert (2 ^ 32 < 2 ^ 63 + 2 ^ 36) by (vm_compute; done).
    lia. }
  destruct Hs as (Hobj & Hobjs & Hstructs).
  match goal with |- context [BuildTable _ _ _ _ _ _ ?st] =>
    destruct (BuildTable_terminates schema_ binary_ L (N.to_nat L) Hz HL
                (conj Hobj (conj Hobjs Hstructs)) root
                BinarySectionType.RootTable (reflection.root_table schema_)
                Hreach Hobj ltac:(lia) st)
      as ([] & st1 & Hrun & _)
  end.
  - intros V vt H. simpl in H. rewrite lookup_empty in H. discriminate.
  - rewrite Hrun, FixMissingSections_eq. eauto.
Qed.





(** ** More on [GetScalar] *)

Lemma load_le_inj (p q : pointer) (at_ : N) (width : nat) :
  load_le p at_ width = load_le q at_ width →
  ∀ i, at_ ≤ i → i < at_ + N.of_nat width → p i = q i.
Proof.
  revert at_. induction width as [|w IH]; intros at_ Heq i Hlo Hhi; [lia|].
  cbn [load_le] in Heq.
  pose proof (Byte.to_N_bounded (p at_)) as Hp.
  pose proof (Byte.to_N_bounded (q at_)) as Hq.
  assert (Hb : Byte.to_N (p at_) = Byte.to_N (q at_)) by lia.
  assert (Hr : load_le p (N.succ at_) w = load_le q (N.succ at_) w) by lia.
  destruct (decide (i = at_)) as [->|Hne].
  - apply (f_equal Byte.of_N) in Hb. rewrite !Byte.of_to_N in Hb.
    by injection Hb.
  - apply (IH (N.succ at_)); [exact Hr|lia|lia].
Qed.

Lemma load_le_app (p : pointer) (at_ : N) (m n : nat) :
  load_le p at_ (m + n)
  = load_le p at_ m + 256 ^ N.of_nat m * load_le p (at_ + N.of_nat m) n.
Proof.
  revert at_. induction m as [|m IH]; intros at_.
  - simpl. rewrite N.add_0_r. lia.
  - cbn [load_le Nat.add]. rewrite IH.
    replace (N.succ at_ + N.of_nat m) with (at_ + N.of_nat (S m)) by lia.
    replace (N.of_nat (S m)) with (N.succ (N.of_nat m)) by lia.
    rewrite N.pow_succ_r'. lia.
Qed.

Lemma load_le_ptr_add (p : pointer) (k at_ : N) (width : nat) :
  load_le (ptr_add p k) at_ width = load_le p (k + at_) width.
Proof.
  revert at_. induction width as [|w IH]; intros at_; [reflexivity|].
  cbn [load_le]. rewrite IH. unfold ptr_add.
  replace (k + N.succ at_) with (N.succ (k + at_)) by lia. reflexivity.
Qed.

Lemma pow256_bits (w : nat) :
  Z.of_N (256 ^ N.of_nat w) = (2 ^ (8 * Z.of_nat w))%Z.
Proof.
  rewrite N2Z.inj_pow, nat_N_Z. change (Z.of_N 256) with (2 ^ 8)%Z.
  rewrite <- Z.pow_mul_r by lia. reflexivity.
Qed.

Lemma reinterpret_range (T : ScalarType) (raw : N) :
  raw < 256 ^ N.of_nat (sizeof T) →
  if is_signed T
  then (- 2 ^ (8 * Z.of_nat (sizeof T) - 1) ≤ reinterpret T raw
        < 2 ^ (8 * Z.of_nat (sizeof T) - 1))%Z
  else (0 ≤ reinterpret T raw < 2 ^ (8 * Z.of_nat (sizeof T)))%Z.
Proof.
  intros Hraw. apply N2Z.inj_lt in Hraw. rewrite pow256_bits in Hraw.
  unfold reinterpret.
  destruct T; cbn [is_signed sizeof andb] in *;
    try (split; lia);
    match goal with |- context [(?a <=? ?b)%Z] =>
      destruct (Z.leb_spec a b)
    end; simpl in *; lia.
Qed.

Lemma reinterpret_mod (T : ScalarType) (raw : N) :
  raw < 256 ^ N.of_nat (sizeof T) →
  (reinterpret T raw mod 2 ^ (8 * Z.of_nat (sizeof T)))%Z = Z.of_N raw.
Proof.
  intros Hraw. apply N2Z.inj_lt in Hraw. rewrite pow256_bits in Hraw.
  unfold reinterpret.
  destruct (is_signed T && _) eqn:E.
  - rewrite <- (Z.mod_small (Z.of_N raw) (2 ^ (8 * Z.of_nat (sizeof T))))
      at 2 by lia.
    replace (Z.of_N raw - 2 ^ (8 * Z.of_nat (sizeof T)))%Z
      with (Z.of_N raw + (-1) * 2 ^ (8 * Z.of_nat (sizeof T)))%Z by lia.
    apply Z.mod_add. destruct T; simpl; lia.
  - apply Z.mod_small. lia.
Qed.

(** X1: whatever the memory holds, [GetScalar<T>] returns a value of [T]:
    between [-2^(n-1)] and [2^(n-1) - 1] for a signed [T] of [n] bits, between
    [0] and [2^n - 1] for an unsigned one. *)
Theorem GetScalar_in_the_range_of_T (T : ScalarType) (binary : pointer) :
  if is_signed T
  then (- 2 ^ (8 * Z.of_nat (sizeof T) - 1) ≤ GetScalar T binary
        < 2 ^ (8 * Z.of_nat (sizeof T) - 1))%Z
  else (0 ≤ GetScalar T binary < 2 ^ (8 * Z.of_nat (sizeof T)))%Z.
Proof. unfold GetScalar. apply reinterpret_range, load_le_bound. Qed.

(** X2: [GetScalar<T>] reads the [sizeof(T)] bytes at the pointer and
    nothing else, and loses nothing of them: two memories give the same value
    exactly when they hold the same bytes at the offsets below
    [sizeof(T)]. *)
Theorem GetScalar_eq_iff_same_bytes (T : ScalarType) (p q : pointer) :
  GetScalar T p = GetScalar T q
  ↔ ∀ i, i < N.of_nat (sizeof T) → p i = q i.
Proof.
  unfold GetScalar. split.
  - intros Heq i Hi. apply (load_le_inj p q 0 (sizeof T)); [|lia|lia].
    apply N2Z.inj.
    rewrite <- (reinterpret_mod T (load_le p 0 (sizeof T)))
      by apply load_le_bound.
    rewrite <- (reinterpret_mod T (load_le q 0 (sizeof T)))
      by apply load_le_bound.
    by rewrite Heq.
  - intros Hpq. f_equal. apply load_le_ext. intros i _ Hi. apply Hpq. lia.
Qed.

Lemma GetScalar_unsigned (T : ScalarType) (p : pointer) :
  is_signed T = false → GetScalar T p = Z.of_N (load_le p 0 (sizeof T)).
Proof. intros H. unfold GetScalar. by apply reinterpret_unsigned. Qed.

(** X3: the member [GetScalar] reads little-endian: the 16-bit value at
    an offset is the byte there plus 256 times the next byte, the 32-bit value
    is the 16-bit value there plus [2^16] times the 16-bit value two bytes on,
    and the 64-bit value is made of two 32-bit values likewise. *)
Theorem BinaryAnnotator_GetScalar_little_endian (binary_ : pointer)
    (offset : N) :
  BinaryAnnotator_GetScalar binary_ uint8_t offset
  = Z.of_N (Byte.to_N (binary_ offset))
  ∧ BinaryAnnotator_GetScalar binary_ uint16_t offset
    = (BinaryAnnotator_GetScalar binary_ uint8_t offset
       + 2 ^ 8 * BinaryAnnotator_GetScalar binary_ uint8_t (offset + 1))%Z
  ∧ BinaryAnnotator_GetScalar binary_ uint32_t offset
    = (BinaryAnnotator_GetScalar binary_ uint16_t offset
       + 2 ^ 16 * BinaryAnnotator_GetScalar binary_ uint16_t (offset + 2))%Z
  ∧ BinaryAnnotator_GetScalar binary_ uint64_t offset
    = (BinaryAnnotator_GetScalar binary_ uint32_t offset
       + 2 ^ 32 * BinaryAnnotator_GetScalar binary_ uint32_t (offset + 4))%Z.
Proof.
  unfold BinaryAnnotator_GetScalar.
  rewrite !GetScalar_unsigned by reflexivity. cbn [sizeof].
  rewrite !load_le_ptr_add, !N.add_0_r.
  pose proof (load_le_app binary_ offset 1 1) as H16.
  pose proof (load_le_app binary_ offset 2 2) as H32.
  pose proof (load_le_app binary_ offset 4 4) as H64.
  cbn [Nat.add] in H16, H32, H64.
  change (256 ^ N.of_nat 1) with (2 ^ 8) in H16.
  change (256 ^ N.of_nat 2) with (2 ^ 16) in H32.
  change (256 ^ N.of_nat 4) with (2 ^ 32) in H64.
  change (N.of_nat 1) with 1 in H16. change (N.of_nat 2) with 2 in H32.
  change (N.of_nat 4) with 4 in H64.
  split; [|split; [|split]].
  - cbn [load_le]. f_equal. lia.
  - rewrite H16. lia.
  - rewrite H32. lia.
  - rewrite H64. lia.
Qed.

Lemma reinterpret_negative (T : ScalarType) (raw : N) :
  (reinterpret T raw < 0)%Z
  ↔ is_signed T = true
    ∧ (2 ^ (8 * Z.of_nat (sizeof T) - 1) ≤ Z.of_N raw
       < 2 ^ (8 * Z.of_nat (sizeof T)))%Z.
Proof.
  unfold reinterpret. destruct (is_signed T); cbn [andb].
  - destruct (Z.leb_spec (2 ^ (8 * Z.of_nat (sizeof T) - 1)) (Z.of_N raw));
      split; try lia; intros [_ ?]; lia.
  - split; [lia|]. intros [? _]. discriminate.
Qed.

Lemma load_le_top_byte (p : pointer) (width : nat) :
  (0 < width)%nat →
  (2 ^ (8 * Z.of_nat width - 1) ≤ Z.of_N (load_le p 0 width))%Z
  ↔ 128 ≤ Byte.to_N (p (N.of_nat width - 1)).
Proof.
  intros Hpos.
  destruct width as [|w]; [lia|]. clear Hpos.
  replace (S w) with (w + 1)%nat at 2 by lia.
  rewrite load_le_app. cbn [load_le]. rewrite N.add_0_l, N.mul_0_r, N.add_0_r.
  replace (N.of_nat (S w) - 1) with (N.of_nat w) by lia.
  pose proof (load_le_bound p 0 w) as Hlow.
  replace (8 * Z.of_nat (S w) - 1)%Z with (8 * Z.of_nat w + 7)%Z by lia.
  rewrite Z.pow_add_r by lia. rewrite <- pow256_bits.
  set (P := 256 ^ N.of_nat w) in *. set (b := Byte.to_N _).
  set (low := load_le p 0 w) in *.
  change (2 ^ 7)%Z with (Z.of_N 128).
  rewrite <- N2Z.inj_mul, <- N2Z.inj_le.
  split; intros H; nia.
Qed.

(** X4: a signed read and the unsigned read of the same width see the
    same bytes: they agree modulo [2^n], they are equal exactly when the
    signed value is not negative, and the signed value is negative exactly
    when the top bit of the last byte is set. *)
Theorem GetScalar_signed_and_unsigned (T : ScalarType) (binary : pointer) :
  sizeof (make_unsigned T) = sizeof T
  ∧ (GetScalar T binary mod 2 ^ (8 * Z.of_nat (sizeof T)))%Z
    = GetScalar (make_unsigned T) binary
  ∧ (GetScalar T binary = GetScalar (make_unsigned T) binary
     ↔ (0 ≤ GetScalar T binary)%Z)
  ∧ ((GetScalar T binary < 0)%Z
     ↔ is_signed T = true
       ∧ 128 ≤ Byte.to_N (binary (N.of_nat (sizeof T) - 1))).
Proof.
  assert (Hsz : sizeof (make_unsigned T) = sizeof T) by (by destruct T).
  assert (Hu : GetScalar (make_unsigned T) binary
               = Z.of_N (load_le binary 0 (sizeof T))).
  { rewrite GetScalar_unsigned by (by destruct T). by rewrite Hsz. }
  assert (Hmod : (GetScalar T binary mod 2 ^ (8 * Z.of_nat (sizeof T)))%Z
                 = GetScalar (make_unsigned T) binary).
  { rewrite Hu. apply reinterpret_mod, load_le_bound. }
  assert (Hraw : (Z.of_N (load_le binary 0 (sizeof T))
                  < 2 ^ (8 * Z.of_nat (sizeof T)))%Z).
  { rewrite <- pow256_bits. apply N2Z.inj_lt, load_le_bound. }
  split; [exact Hsz|]. split; [exact Hmod|]. split.
  - split.
    + intros ->. rewrite Hu. lia.
    + intros Hpos. rewrite <- Hmod. symmetry. apply Z.mod_small.
      pose proof (reinterpret_range T _ (load_le_bound binary 0 (sizeof T)))
        as Hrange. fold (GetScalar T binary) in Hrange.
      destruct (is_signed T); [|lia]. split; [lia|].
      assert (2 ^ (8 * Z.of_nat (sizeof T) - 1)
              < 2 ^ (8 * Z.of_nat (sizeof T)))%Z
        by (apply Z.pow_lt_mono_r; destruct T; simpl; lia).
      lia.
  - unfold GetScalar. rewrite reinterpret_negative.
    rewrite <- (load_le_top_byte binary (sizeof T))
      by (destruct T; simpl; lia).
    tauto.
Qed.

(** ** More on [GetRegionType] and [ToString] *)

(** X5: which base types [GetRegionType] cannot tell apart: it gives two
    base types the same region type exactly when they are equal, or both
    among [UType], [Bool], [Byte] and [UByte], or both among [Int] and
    [UInt], or both without a [case] of their own.  It never returns an
    offset type, [Bool], [Byte], [Char], [Int8] or [Int32]. *)
Theorem GetRegionType_same_region_type_iff :
  (∀ a b : reflection.BaseType,
     GetRegionType a = GetRegionType b
     ↔ a = b
       ∨ (a ∈ [reflection.UType; reflection.Bool; reflection.Byte;
               reflection.UByte]
          ∧ b ∈ [reflection.UType; reflection.Bool; reflection.Byte;
                 reflection.UByte])
       ∨ (a ∈ [reflection.Int; reflection.UInt]
          ∧ b ∈ [reflection.Int; reflection.UInt])
       ∨ (reflection.is_scalar a = false ∧ reflection.is_scalar b = false))
  ∧ (∀ bt : reflection.BaseType,
       GetRegionType bt
       ∈ [BinaryRegionType.Unknown; BinaryRegionType.Uint8;
          BinaryRegionType.Int16; BinaryRegionType.Uint16;
          BinaryRegionType.Uint32; BinaryRegionType.Int64;
          BinaryRegionType.Uint64; BinaryRegionType.Float;
          BinaryRegionType.Double]).
Proof.
  split.
  - intros a b.
    destruct a, b; apply (bool_decide_unpack _); vm_compute; exact I.
  - intros bt. destruct bt; apply (bool_decide_unpack _); vm_compute; exact I.
Qed.

Lemma BinaryRegionType_of_value_None (v : Z) :
  BinaryRegionType_of_value v = None ↔ (v < 0 ∨ 16 < v)%Z.
Proof.
  split.
  - intros H. destruct (Z.lt_ge_cases v 0) as [|Hlo]; [by left|].
    destruct (Z.lt_ge_cases 16 v) as [|Hhi]; [by right|]. exfalso.
    assert (Hv : v ∈ Z.of_nat <$> seq 0 17).
    { apply list_elem_of_fmap. exists (Z.to_nat v). split; [lia|].
      apply elem_of_seq. lia. }
    vm_compute in Hv.
    repeat (apply elem_of_cons in Hv as [->|Hv]; [discriminate H|]).
    by apply elem_of_nil in Hv.
  - intros [Hneg|Hbig].
    + destruct v as [|p|p]; try lia. reflexivity.
    + destruct v as [|p|p]; try lia.
      do 5 (try destruct p as [p|p|]); try lia; reflexivity.
Qed.

(** X6: [ToString] names every region type except that [Byte] and [Int8]
    share the name [int8_t]: two enumerators have the same name only when they
    are equal or are that pair.  The [default] label is dead for the
    enumerators: a value of the underlying type gets [todo] exactly when it is
    below 0 or above 16, and no enumerator does. *)
Theorem ToString_names :
  (∀ a b : BinaryRegionType.t,
     ToString a = ToString b
     ↔ a = b
       ∨ (a ∈ [BinaryRegionType.Byte; BinaryRegionType.Int8]
          ∧ b ∈ [BinaryRegionType.Byte; BinaryRegionType.Int8]))
  ∧ (∀ type : BinaryRegionType.t,
       ToString_of_value (Z.of_N (BinaryRegionType.value type))
       = ToString type
       ∧ ToString type ≠ "todo")
  ∧ (∀ v : Z, ToString_of_value v = "todo" ↔ (v < 0 ∨ 16 < v)%Z).
Proof.
  split; [|split].
  - intros a b.
    destruct a, b; apply (bool_decide_unpack _); vm_compute; exact I.
  - intros type. destruct type; split; try reflexivity; discriminate.
  - intros v. rewrite <- BinaryRegionType_of_value_None.
    unfold ToString_of_value.
    destruct (BinaryRegionType_of_value v) as [type|]; [|done].
    split; [|discriminate]. destruct type; discriminate.
Qed.

(** X7: the name written for a schema field's scalar kind is
    [ToString (GetRegionType bt)].  Two base types get the same name exactly
    when [GetRegionType] gives them the same region type; a base type without
    a [case] gets [?uint8_t]; and the names [bool], [char], [int8_t],
    [int32_t] and the three offset names are never written for a base type:
    a [Bool] and a [Byte] field are named [uint8_t], an [Int] field
    [uint32_t]. *)
Theorem ToString_of_GetRegionType :
  (∀ a b : reflection.BaseType,
     ToString (GetRegionType a) = ToString (GetRegionType b)
     ↔ GetRegionType a = GetRegionType b)
  ∧ (∀ bt : reflection.BaseType,
       reflection.is_scalar bt = false
       ↔ ToString (GetRegionType bt) = "?uint8_t")
  ∧ (∀ bt : reflection.BaseType,
       ToString (GetRegionType bt)
       ∉ ["bool"; "char"; "int8_t"; "int32_t"; "UOffset32"; "SOffset32";
          "VOffset16"; "todo"])
  ∧ ToString (GetRegionType reflection.Bool) = "uint8_t"
  ∧ ToString (GetRegionType reflection.Byte) = "uint8_t"
  ∧ ToString (GetRegionType reflection.Int) = "uint32_t".
Proof.
  split; [|split; [|split; [|done]]].
  - intros a b.
    destruct a, b; apply (bool_decide_unpack _); vm_compute; exact I.
  - intros bt. destruct bt; apply (bool_decide_unpack _); vm_compute; exact I.
  - intros bt. destruct bt; apply (bool_decide_unpack _); vm_compute; exact I.
Qed.

(** ** [ToHex] *)

Lemma hex_value_digit (d : N) : d < 16 → hex_value (hex_digit d) = Some d.
Proof.
  intros Hd.
  assert (Hin : d ∈ N.of_nat <$> seq 0 16).
  { apply list_elem_of_fmap. exists (N.to_nat d). split; [lia|].
    apply elem_of_seq. lia. }
  vm_compute in Hin.
  repeat (apply elem_of_cons in Hin as [->|Hin]; [reflexivity|]).
  by apply elem_of_nil in Hin.
Qed.

Lemma hex_digits_before_spec (fuel : nat) :
  ∀ (v : N) (acc : string),
    fuel ≠ O → v < 16 ^ N.of_nat fuel →
    ∃ k : nat,
      String.length (hex_digits_before fuel v acc)
      = (k + String.length acc)%nat
      ∧ (1 ≤ k)%nat
      ∧ v < 16 ^ N.of_nat k
      ∧ (k = 1%nat ∨ 16 ^ (N.of_nat k - 1) ≤ v)
      ∧ ∀ a, parse_hex_from a (hex_digits_before fuel v acc)
             = parse_hex_from (a * 16 ^ N.of_nat k + v) acc.
Proof.
  induction fuel as [|fuel IH]; intros v acc Hfuel Hv; [done|].
  cbn [hex_digits_before].
  pose proof (N.div_mod v 16 ltac:(lia)) as Hdiv.
  pose proof (N.mod_lt v 16 ltac:(lia)) as Hmod.
  assert (Hv' : v / 16 < 16 ^ N.of_nat fuel).
  { apply N.Div0.div_lt_upper_bound.
    replace (N.of_nat (S fuel)) with (N.succ (N.of_nat fuel)) in Hv by lia.
    by rewrite N.pow_succ_r' in Hv. }
  remember (v / 16) as q eqn:Hq. remember (v mod 16) as r eqn:Hr.
  clear Hq Hr.
  destruct (N.eqb_spec q 0) as [Hz|Hnz].
  - exists 1%nat. split; [reflexivity|]. split; [lia|].
    change (16 ^ N.of_nat 1) with 16.
    split; [lia|]. split; [by left|].
    intros a. cbn [parse_hex_from]. rewrite hex_value_digit by done.
    f_equal. lia.
  - assert (Hf : fuel ≠ O).
    { intros ->. change (16 ^ N.of_nat 0) with 1 in Hv'. lia. }
    destruct (IH q (String (hex_digit r) acc) Hf Hv')
      as (k & Hlen & Hk & Hup & Hlow & Hparse).
    exists (S k). split; [rewrite Hlen; simpl; lia|]. split; [lia|].
    replace (N.of_nat (S k)) with (N.succ (N.of_nat k)) by lia.
    rewrite N.pow_succ_r'.
    split; [lia|]. split.
    + right. replace (N.succ (N.of_nat k) - 1) with (N.of_nat k) by lia.
      destruct Hlow as [->|Hlow].
      * change (16 ^ N.of_nat 1) with 16. lia.
      * replace (N.of_nat k) with (N.succ (N.of_nat k - 1)) by lia.
        rewrite N.pow_succ_r'. lia.
    + intros a. rewrite Hparse. cbn [parse_hex_from].
      rewrite hex_value_digit by done. f_equal. lia.
Qed.

Lemma hex_digits_spec (v : N) :
  ∃ k : nat,
    String.length (hex_digits v) = k
    ∧ (1 ≤ k)%nat
    ∧ v < 16 ^ N.of_nat k
    ∧ (k = 1%nat ∨ 16 ^ (N.of_nat k - 1) ≤ v)
    ∧ ∀ a, parse_hex_from a (hex_digits v) = Some (a * 16 ^ N.of_nat k + v).
Proof.
  unfold hex_digits.
  destruct (hex_digits_before_spec (S (N.to_nat (N.log2 v))) v "")
    as (k & Hlen & Hk & Hup & Hlow & Hparse); [done| |].
  - replace (N.of_nat (S (N.to_nat (N.log2 v)))) with (N.succ (N.log2 v))
      by lia.
    destruct (decide (v = 0)) as [->|Hv]; [reflexivity|].
    pose proof (N.log2_spec v ltac:(lia)) as [_ Hlt].
    eapply N.lt_le_trans; [exact Hlt|].
    apply N.pow_le_mono_l. lia.
  - exists k. rewrite Hlen. simpl. rewrite Nat.add_0_r.
    repeat (split; [done|]). intros a. by rewrite Hparse.
Qed.

Lemma hex_digits_length_le (v : N) (n : N) :
  1 ≤ n → N.of_nat (String.length (hex_digits v)) ≤ n ↔ v < 16 ^ n.
Proof.
  intros Hn. destruct (hex_digits_spec v) as (k & -> & Hk & Hup & Hlow & _).
  split.
  - intros Hle. eapply N.lt_le_trans; [exact Hup|].
    apply N.pow_le_mono_r; lia.
  - intros Hlt. destruct Hlow as [->|Hlow]; [lia|].
    assert (16 ^ (N.of_nat k - 1) < 16 ^ n) as Hpow by lia.
    apply N.pow_lt_mono_r_iff in Hpow; lia.
Qed.

Lemma fill_length (c : Ascii.ascii) (n : nat) (text : string) :
  String.length (fill c n text) = (n + String.length text)%nat.
Proof. induction n as [|n IH]; simpl; [reflexivity|by rewrite IH]. Qed.

Lemma parse_hex_fill (n : nat) (text : string) :
  parse_hex_from 0 (fill fill_char n text) = parse_hex_from 0 text.
Proof. induction n as [|n IH]; [reflexivity|exact IH]. Qed.

Lemma int_of_size_t_small (width : N) :
  width < 2 ^ 31 → int_of_size_t width = Z.of_N width.
Proof.
  intros Hw. unfold int_of_size_t. rewrite N.mod_small by lia.
  destruct (Z.ltb_spec (Z.of_N width) (2 ^ 31)); lia.
Qed.

Lemma insert_hex_wide (T : ScalarType) (i : Z) :
  sizeof T ≠ 1%nat → insert_hex T i = hex_digits (to_unsigned T i).
Proof. intros H. unfold insert_hex. by destruct T. Qed.

Lemma to_unsigned_bound (T : ScalarType) (i : Z) :
  to_unsigned T i < 16 ^ (2 * N.of_nat (sizeof T)).
Proof.
  unfold to_unsigned.
  assert (0 < 2 ^ (8 * Z.of_nat (sizeof T)))%Z as Hpos
    by (apply Z.pow_pos_nonneg; lia).
  pose proof (Z.mod_pos_bound i _ Hpos) as Hb.
  apply N2Z.inj_lt. rewrite Z2N.id by lia.
  rewrite N2Z.inj_pow, N2Z.inj_mul, nat_N_Z.
  change (Z.of_N 16) with (2 ^ 4)%Z. rewrite <- Z.pow_mul_r by lia.
  replace (4 * (Z.of_N 2 * Z.of_nat (sizeof T)))%Z
    with (8 * Z.of_nat (sizeof T))%Z by lia.
  lia.
Qed.

Lemma ToHex_wide (T : ScalarType) (i : Z) (width : N) :
  sizeof T ≠ 1%nat →
  width < 2 ^ 31 →
  parse_hex (ToHex T i width) = Some (to_unsigned T i)
  ∧ width ≤ N.of_nat (String.length (ToHex T i width))
  ∧ ∀ n, 1 ≤ n → width ≤ n →
         N.of_nat (String.length (ToHex T i width)) ≤ n
         ↔ to_unsigned T i < 16 ^ n.
Proof.
  intros HT Hw. unfold ToHex, pad_left, parse_hex.
  rewrite int_of_size_t_small, insert_hex_wide by done.
  rewrite parse_hex_fill, fill_length.
  destruct (hex_digits_spec (to_unsigned T i)) as (k & Hlen & _ & _ & _ & Hp).
  split; [by rewrite Hp|]. split; [lia|].
  intros n Hn Hwn. rewrite <- (hex_digits_length_le _ n Hn). lia.
Qed.

Lemma byte_values (P : Z → Prop) :
  Forall P (Z.of_nat <$> seq 0 256) → ∀ i, (0 ≤ i < 256)%Z → P i.
Proof.
  intros HP i Hi. rewrite Forall_forall in HP. apply HP.
  apply list_elem_of_fmap. exists (Z.to_nat i). split; [lia|].
  apply elem_of_seq. lia.
Qed.

Lemma ToHex_uint8_t_spec (i : Z) :
  (0 ≤ i < 256)%Z →
  ToHex_uint8_t i
  = String (hex_digit (Z.to_N i / 16))
      (String (hex_digit (Z.to_N i mod 16)) "")
  ∧ parse_hex (ToHex_uint8_t i) = Some (Z.to_N i).
Proof.
  revert i. apply byte_values.
  apply (bool_decide_unpack _). vm_compute. exact I.
Qed.

(** X8: [ToHex(uint8_t)] writes exactly two upper-case hexadecimal
    digits, the high nibble and then the low one, with a leading [0] for a
    value below 16; read back in base 16 they give the byte, so two bytes
    with the same text are equal. *)
Theorem ToHex_uint8_t_two_digits (i : Z) :
  (0 ≤ i < 256)%Z →
  ToHex_uint8_t i
  = String (hex_digit (Z.to_N i / 16))
      (String (hex_digit (Z.to_N i mod 16)) "")
  ∧ String.length (ToHex_uint8_t i) = 2%nat
  ∧ parse_hex (ToHex_uint8_t i) = Some (Z.to_N i)
  ∧ ∀ j, (0 ≤ j < 256)%Z → ToHex_uint8_t i = ToHex_uint8_t j → i = j.
Proof.
  intros Hi. destruct (ToHex_uint8_t_spec i Hi) as [Heq Hparse].
  split; [exact Heq|]. split; [by rewrite Heq|]. split; [exact Hparse|].
  intros j Hj Hsame. destruct (ToHex_uint8_t_spec j Hj) as [_ Hparse'].
  rewrite Hsame, Hparse' in Hparse. injection Hparse. lia.
Qed.

Lemma ToHex_uint8_t_two_digits_witness :
  (0 ≤ 171 < 256)%Z
  ∧ ToHex_uint8_t 171 = "AB"
  ∧ String.length (ToHex_uint8_t 171) = 2%nat
  ∧ parse_hex (ToHex_uint8_t 171) = Some 171.
Proof.
  assert (H : (0 ≤ 171 < 256)%Z) by lia.
  split; [exact H|].
  destruct (ToHex_uint8_t_two_digits 171 H) as (Heq & Hlen & Hparse & _).
  split; [exact Heq|]. split; [exact Hlen|exact Hparse].
Defined.

(** X9: for a [T] wider than a character type, [ToHex<T>(i, width)]
    never truncates: whatever the width, the text read back in base 16 is [i]
    (a negative [i] as its two's complement).  The text has at least [width]
    characters, and it fits in [n ≥ width] characters exactly when the value
    is below [16^n]. *)
Theorem ToHex_pads_and_never_truncates (T : ScalarType) (i : Z) (width : N) :
  sizeof T ≠ 1%nat →
  width < 2 ^ 31 →
  parse_hex (ToHex T i width) = Some (to_unsigned T i)
  ∧ width ≤ N.of_nat (String.length (ToHex T i width))
  ∧ ∀ n, 1 ≤ n → width ≤ n →
         N.of_nat (String.length (ToHex T i width)) ≤ n
         ↔ to_unsigned T i < 16 ^ n.
Proof. apply ToHex_wide. Qed.

Lemma ToHex_pads_and_never_truncates_witness :
  sizeof uint16_t ≠ 1%nat
  ∧ 1 < 2 ^ 31
  ∧ ToHex uint16_t 4660 1 = "1234"
  ∧ parse_hex (ToHex uint16_t 4660 1) = Some (to_unsigned uint16_t 4660)
  ∧ 1 ≤ N.of_nat (String.length (ToHex uint16_t 4660 1)).
Proof.
  assert (H1 : sizeof uint16_t ≠ 1%nat) by (simpl; lia).
  assert (H2 : 1 < 2 ^ 31) by (vm_compute; reflexivity).
  split; [exact H1|]. split; [exact H2|]. split; [reflexivity|].
  destruct (ToHex_pads_and_never_truncates uint16_t 4660 1 H1 H2)
    as (Hparse & Hlen & _).
  split; [exact Hparse|exact Hlen].
Defined.

(** X10: the default width of [ToHex<T>] is [sizeof(T)], a number of
    bytes, while a byte takes two digits: for a [T] wider than a character
    type the text has between [sizeof(T)] and [2 * sizeof(T)] characters, and
    it has [sizeof(T)] of them exactly when the value is below
    [16^sizeof(T)], that is, when the upper half of its bits is zero. *)
Theorem ToHex_default_width (T : ScalarType) (i : Z) :
  sizeof T ≠ 1%nat →
  (sizeof T ≤ String.length (ToHex_default T i) ≤ 2 * sizeof T)%nat
  ∧ (String.length (ToHex_default T i) = sizeof T
     ↔ to_unsigned T i < 16 ^ N.of_nat (sizeof T)).
Proof.
  intros HT. unfold ToHex_default.
  assert (Hw : N.of_nat (sizeof T) < 2 ^ 31)
    by (destruct T; vm_compute; reflexivity).
  destruct (ToHex_wide T i (N.of_nat (sizeof T)) HT Hw) as (_ & Hlo & Hfit).
  pose proof (to_unsigned_bound T i) as Hb.
  assert (H1 : 1 ≤ N.of_nat (sizeof T)) by (destruct T; simpl; lia).
  split; [split; [lia|]|].
  - apply (Hfit (2 * N.of_nat (sizeof T))) in Hb; lia.
  - rewrite <- (Hfit (N.of_nat (sizeof T))) by lia. lia.
Qed.

Lemma ToHex_default_width_witness :
  sizeof uint32_t ≠ 1%nat
  ∧ ToHex_default uint32_t 18 = "0012"
  ∧ ToHex_default uint32_t 305419896 = "12345678"
  ∧ (sizeof uint32_t ≤ String.length (ToHex_default uint32_t 305419896)
     ≤ 2 * sizeof uint32_t)%nat.
Proof.
  assert (H : sizeof uint32_t ≠ 1%nat) by (simpl; lia).
  split; [exact H|]. split; [vm_compute; reflexivity|].
  split; [vm_compute; reflexivity|].
  exact (proj1 (ToHex_default_width uint32_t 305419896 H)).
Defined.

(** X11: a negative value of a signed [T] wider than a character type is
    written as its two's complement with all [2 * sizeof(T)] digits, for
    every width up to that many: [ToHex<int16_t>(-1)] is [FFFF]. *)
Theorem ToHex_negative (T : ScalarType) (i : Z) (width : N) :
  sizeof T ≠ 1%nat →
  is_signed T = true →
  (- 2 ^ (8 * Z.of_nat (sizeof T) - 1) ≤ i < 0)%Z →
  width ≤ 2 * N.of_nat (sizeof T) →
  String.length (ToHex T i width) = (2 * sizeof T)%nat
  ∧ parse_hex (ToHex T i width)
    = Some (Z.to_N (2 ^ (8 * Z.of_nat (sizeof T)) + i)).
Proof.
  intros HT Hsigned Hi Hwidth.
  assert (Hw : width < 2 ^ 31).
  { eapply N.le_lt_trans; [exact Hwidth|].
    destruct T; vm_compute; reflexivity. }
  destruct (ToHex_wide T i width HT Hw) as (Hparse & Hlo & Hfit).
  pose proof (to_unsigned_bound T i) as Hb.
  assert (Hpow : (2 * 2 ^ (8 * Z.of_nat (sizeof T) - 1)
                  = 2 ^ (8 * Z.of_nat (sizeof T)))%Z)
    by (destruct T; reflexivity).
  assert (Hv : to_unsigned T i = Z.to_N (2 ^ (8 * Z.of_nat (sizeof T)) + i)).
  { unfold to_unsigned. f_equal.
    rewrite <- (Z.mod_add i 1) by lia.
    rewrite Z.mod_small by lia. lia. }
  split; [|by rewrite Hparse, Hv].
  assert (Hs : (2 ≤ sizeof T)%nat) by (destruct T; simpl in *; lia).
  assert (Hup : N.of_nat (String.length (ToHex T i width))
                ≤ 2 * N.of_nat (sizeof T)) by (apply Hfit; [lia|done|done]).
  destruct (N.le_gt_cases width (2 * N.of_nat (sizeof T) - 1)) as [Hle|Hgt];
    [|lia].
  assert (Hdown : ¬ N.of_nat (String.length (ToHex T i width))
                    ≤ 2 * N.of_nat (sizeof T) - 1).
  { rewrite Hfit by lia. rewrite Hv. apply N.le_ngt.
    apply N2Z.inj_le. rewrite Z2N.id by lia.
    assert (Z.of_N (16 ^ (2 * N.of_nat (sizeof T) - 1))
            ≤ 2 ^ (8 * Z.of_nat (sizeof T) - 1))%Z
      by (destruct T; vm_compute; discriminate).
    lia. }
  lia.
Qed.

Lemma ToHex_negative_witness :
  sizeof int16_t ≠ 1%nat
  ∧ (- 2 ^ (8 * Z.of_nat (sizeof int16_t) - 1) ≤ -1 < 0)%Z
  ∧ ToHex int16_t (-1) 2 = "FFFF"
  ∧ String.length (ToHex int16_t (-1) 2) = (2 * sizeof int16_t)%nat.
Proof.
  assert (H1 : sizeof int16_t ≠ 1%nat) by (simpl; lia).
  assert (H2 : (- 2 ^ (8 * Z.of_nat (sizeof int16_t) - 1) ≤ -1 < 0)%Z)
    by (simpl; lia).
  split; [exact H1|]. split; [exact H2|]. split; [vm_compute; reflexivity|].
  refine (proj1 (ToHex_negative int16_t (-1) 2 H1 eq_refl H2 _)).
  simpl. lia.
Defined.

(** X12: at [uint8_t] the template does not write digits: the stream
    takes the argument for a character and writes that one character, so the
    text read back in base 16 is never the value.  The overload
    [ToHex(uint8_t)] differs from it on every byte. *)
Theorem ToHex_template_at_uint8_t (i : Z) :
  (0 ≤ i < 256)%Z →
  ToHex_default uint8_t i = String (Ascii.ascii_of_N (Z.to_N i)) ""
  ∧ parse_hex (ToHex_default uint8_t i) ≠ Some (Z.to_N i)
  ∧ ToHex_default uint8_t i ≠ ToHex_uint8_t i.
Proof.
  revert i. apply byte_values.
  apply (bool_decide_unpack _). vm_compute. exact I.
Qed.

Lemma ToHex_template_at_uint8_t_witness :
  (0 ≤ 65 < 256)%Z
  ∧ ToHex_default uint8_t 65 = "A"
  ∧ ToHex_uint8_t 65 = "41"
  ∧ parse_hex (ToHex_default uint8_t 65) ≠ Some (Z.to_N 65).
Proof.
  assert (H : (0 ≤ 65 < 256)%Z) by lia.
  split; [exact H|].
  destruct (ToHex_template_at_uint8_t 65 H) as (Heq & Hparse & _).
  split; [exact Heq|]. split; [reflexivity|exact Hparse].
Defined.

(** X13: the byte at an offset of the binary, read with the member
    [GetScalar<uint8_t>] and written with [ToHex(uint8_t)], is two digits
    that read back as that byte: two offsets show the same text exactly when
    they hold the same byte. *)
Theorem ToHex_of_GetScalar_uint8_t (binary_ : pointer) (offset : N) :
  String.length (ToHex_uint8_t (BinaryAnnotator_GetScalar binary_ uint8_t offset))
  = 2%nat
  ∧ parse_hex (ToHex_uint8_t (BinaryAnnotator_GetScalar binary_ uint8_t offset))
    = Some (Byte.to_N (binary_ offset))
  ∧ ∀ offset',
      ToHex_uint8_t (BinaryAnnotator_GetScalar binary_ uint8_t offset)
      = ToHex_uint8_t (BinaryAnnotator_GetScalar binary_ uint8_t offset')
      ↔ binary_ offset = binary_ offset'.
Proof.
  assert (Hread : ∀ o, BinaryAnnotator_GetScalar binary_ uint8_t o
                       = Z.of_N (Byte.to_N (binary_ o))).
  { intros o. unfold BinaryAnnotator_GetScalar.
    rewrite GetScalar_unsigned by reflexivity. cbn [sizeof].
    rewrite load_le_ptr_add, N.add_0_r. cbn [load_le]. f_equal. lia. }
  assert (Hrange : ∀ o, (0 ≤ Z.of_N (Byte.to_N (binary_ o)) < 256)%Z).
  { intros o. pose proof (Byte.to_N_bounded (binary_ o)). lia. }
  rewrite !Hread.
  destruct (ToHex_uint8_t_spec _ (Hrange offset)) as [Heq Hparse].
  rewrite N2Z.id in Hparse.
  split; [by rewrite Heq|]. split; [exact Hparse|].
  intros offset'. rewrite Hread. split.
  - intros Hsame.
    destruct (ToHex_uint8_t_spec _ (Hrange offset')) as [_ Hparse'].
    rewrite N2Z.id in Hparse'. rewrite Hsame, Hparse' in Hparse.
    injection Hparse as Hb.
    apply (f_equal Byte.of_N) in Hb. rewrite !Byte.of_to_N in Hb.
    by injection Hb.
  - by intros ->.
Qed.
